(** * The per-frame physics step of the 2D gravity + collision demo

    A shallow embedding of the physics part of [main.cpp]: the softened
    gravity pass, the pairwise elastic collision pass with overlap
    correction, and the explicit-Euler position integration.

    The source computes in C++ [float].  The step is written once, over an
    abstract scalar type with the operations the source uses, and is then
    read at two instances:
    - the real numbers (exact arithmetic), for the algebraic laws;
    - IEEE-754 binary32 (round to nearest even, [SpecFloat] with 24 bits of
      precision), for what the program computes bit for bit, NaN and
      infinities included: every C++ [float] operation is one correctly
      rounded binary32 operation (no extended precision, no fused
      multiply-add), and [sqrt] is correctly rounded.

    Statements about sums, products and equalities of quantities are made
    in exact arithmetic; statements about NaN and infinities are made in
    binary32. *)

From Stdlib Require Import ZArith Reals Lra Lia Psatz SpecFloat.
From stdpp Require Import base list.

(** ** Scalars *)

(** The operations of [float] the physics step uses.  [slit n d] is the
    literal whose decimal value is [n/d]. *)
Class Scalar (T : Type) : Type := {
  sadd : T -> T -> T;
  ssub : T -> T -> T;
  smul : T -> T -> T;
  sdiv : T -> T -> T;
  ssqrt : T -> T;
  sltb : T -> T -> bool;
  slit : Z -> positive -> T
}.

Declare Scope scalar_scope.
Delimit Scope scalar_scope with sc.
Infix "+" := sadd : scalar_scope.
Infix "-" := ssub : scalar_scope.
Infix "*" := smul : scalar_scope.
Infix "/" := sdiv : scalar_scope.

(** Exact arithmetic.  Division and square root are the total functions of
    the real numbers ([x / 0 = 0]); with positive masses, the invariant of
    the data model, no divisor of the step is zero: the softened squared
    distance is at least [SOFTENING], the collision distance is past the
    [0.0001f] guard, and the sum of two masses is positive. *)
#[export] Instance R_scalar : Scalar R := {
  sadd := Rplus;
  ssub := Rminus;
  smul := Rmult;
  sdiv := Rdiv;
  ssqrt := sqrt;
  sltb x y := if Rlt_dec x y then true else false;
  slit n d := (IZR n / IZR (Zpos d))%R
}.

(** IEEE-754 binary32: 24 bits of precision, infinities at exponent 128. *)
Abbreviation float32 := spec_float (only parsing).

Definition f32_of_Z (n : Z) : float32 := binary_normalize 24 128 n 0 false.

(** A literal [n/d] is the correctly rounded quotient of two integers; it
    is the binary32 value of the decimal literal when [n] and [d] are
    exactly representable (below 2^24) or [d = 1], as are all the literals
    below. *)
#[export] Instance float32_scalar : Scalar float32 := {
  sadd := SFadd 24 128;
  ssub := SFsub 24 128;
  smul := SFmul 24 128;
  sdiv := SFdiv 24 128;
  ssqrt := SFsqrt 24 128;
  sltb := SFltb;
  slit n d := SFdiv 24 128 (f32_of_Z n) (f32_of_Z (Zpos d))
}.

(** A binary32 value that is neither a NaN nor an infinity. *)
Definition is_finite (x : float32) : bool :=
  match x with
  | S754_zero _ | S754_finite _ _ _ => true
  | S754_infinity _ | S754_nan => false
  end.

(** ** Data model *)

(** [glm::vec2] *)
Record vec2 (T : Type) : Type := Vec2 { vx : T; vy : T }.
Arguments Vec2 {T} _ _.
Arguments vx {T} _.
Arguments vy {T} _.

(** [struct Particle] *)
Record Particle (T : Type) : Type := mkParticle {
  pos : vec2 T;
  vel : vec2 T;
  mass : T
}.
Arguments mkParticle {T} _ _ _.
Arguments pos {T} _.
Arguments vel {T} _.
Arguments mass {T} _.

Section Physics.
Context {T : Type} `{Scalar T}.
Local Open Scope scalar_scope.

(** *** Constants *)

Definition G : T := slit 1 1.
Definition SOFTENING : T := slit 1 100.
Definition RADIUS_SCALE : T := slit 2 100.

(** *** The [glm::vec2] operations used *)

(** [glm::vec2(0.0f)] *)
Definition vzero : vec2 T := Vec2 (slit 0 1) (slit 0 1).
(** [a + b] *)
Definition vadd (a b : vec2 T) : vec2 T := Vec2 (vx a + vx b) (vy a + vy b).
(** [a - b] *)
Definition vsub (a b : vec2 T) : vec2 T := Vec2 (vx a - vx b) (vy a - vy b).
(** [v * s] *)
Definition vscale (v : vec2 T) (s : T) : vec2 T := Vec2 (vx v * s) (vy v * s).
(** [s * v] *)
Definition smulv (s : T) (v : vec2 T) : vec2 T := Vec2 (s * vx v) (s * vy v).
(** [v / s] *)
Definition vdivs (v : vec2 T) (s : T) : vec2 T := Vec2 (vx v / s) (vy v / s).
(** [glm::dot(a, b)] *)
Definition dot (a b : vec2 T) : T := vx a * vx b + vy a * vy b.

(** *** Field updates of a particle *)

(** [p.vel += d] *)
Definition add_vel (d : vec2 T) (p : Particle T) : Particle T :=
  mkParticle (pos p) (vadd (vel p) d) (mass p).
(** [p.pos += d] *)
Definition add_pos (d : vec2 T) (p : Particle T) : Particle T :=
  mkParticle (vadd (pos p) d) (vel p) (mass p).
(** [p.pos -= d] *)
Definition sub_pos (d : vec2 T) (p : Particle T) : Particle T :=
  mkParticle (vsub (pos p) d) (vel p) (mass p).

Definition getRadius (m : T) : T := m * RADIUS_SCALE.

(** *** Gravity pass *)

(** What one iteration of the inner loop adds to [acc[i]]. *)
Definition gravity_term (pi pj : Particle T) : vec2 T :=
  let diff := vsub (pos pj) (pos pi) in
  let distSq := dot diff diff + SOFTENING in
  let dist := ssqrt distSq in
  let force := G * mass pi * mass pj / distSq in
  let dir := vdivs diff dist in
  vscale dir (force / mass pi).

(** Body of the inner loop at [(i, j)]; the indices are always in range. *)
Definition gravity_body (ps : list (Particle T)) (i j : nat)
    (acc : list (vec2 T)) : list (vec2 T) :=
  if (i =? j)%nat then acc
  else match ps !! i, ps !! j with
       | Some pi, Some pj => alter (fun a => vadd a (gravity_term pi pj)) i acc
       | _, _ => acc
       end.

(** The double loop filling [acc], started from [acc0]. *)
Definition gravity_loops (ps : list (Particle T)) (acc0 : list (vec2 T))
    : list (vec2 T) :=
  let n := length ps in
  fold_left
    (fun acc i => fold_left (fun acc j => gravity_body ps i j acc) (seq 0 n) acc)
    (seq 0 n) acc0.

Definition accumulate_gravity (ps : list (Particle T)) : list (vec2 T) :=
  gravity_loops ps (replicate (length ps) vzero).

(** [particles[i].vel += acc[i] * dt] *)
Definition velocity_body (dt : T) (acc : list (vec2 T)) (i : nat)
    (ps : list (Particle T)) : list (Particle T) :=
  match acc !! i with
  | Some a => alter (add_vel (vscale a dt)) i ps
  | None => ps
  end.

Definition apply_acceleration (dt : T) (acc : list (vec2 T))
    (ps : list (Particle T)) : list (Particle T) :=
  fold_left (fun ps i => velocity_body dt acc i ps) (seq 0 (length ps)) ps.

Definition gravity_pass (dt : T) (ps : list (Particle T)) : list (Particle T) :=
  apply_acceleration dt (accumulate_gravity ps) ps.

(** *** Collision pass *)

(** Body of the collision loops at the pair [(i, j)], [i < j]. *)
Definition resolve_pair (i j : nat) (ps : list (Particle T))
    : list (Particle T) :=
  match ps !! i, ps !! j with
  | Some pi, Some pj =>
      let diff := vsub (pos pj) (pos pi) in
      let distSq := dot diff diff in
      let rSum := getRadius (mass pi) + getRadius (mass pj) in
      if sltb distSq (rSum * rSum) then
        let dist := ssqrt distSq in
        if sltb dist (slit 1 10000) then ps
        else
          let n := vdivs diff dist in
          let v1 := dot (vel pi) n in
          let v2 := dot (vel pj) n in
          let m1 := mass pi in
          let m2 := mass pj in
          let v1New := (v1 * (m1 - m2) + slit 2 1 * m2 * v2) / (m1 + m2) in
          let v2New := (v2 * (m2 - m1) + slit 2 1 * m1 * v1) / (m1 + m2) in
          let ps := alter (add_vel (smulv (v1New - v1) n)) i ps in
          let ps := alter (add_vel (smulv (v2New - v2) n)) j ps in
          let penetration := rSum - dist in
          let correction := vscale n (penetration / slit 2 1) in
          let ps := alter (sub_pos correction) i ps in
          alter (add_pos correction) j ps
      else ps
  | _, _ => ps
  end.

(** [for i in 0..n-1, for j in i+1..n-1]; the size never changes, so the
    bound read at every iteration is the initial one. *)
Definition resolve_collisions (ps : list (Particle T)) : list (Particle T) :=
  let n := length ps in
  fold_left
    (fun ps i =>
       fold_left (fun ps j => resolve_pair i j ps) (seq (S i) (n - S i)) ps)
    (seq 0 n) ps.

(** *** Position integration *)

Definition integrate (dt : T) (ps : list (Particle T)) : list (Particle T) :=
  map (fun p => add_pos (vscale (vel p) dt) p) ps.

(** *** One frame, and a run of frames *)

Definition physics_step (dt : T) (ps : list (Particle T)) : list (Particle T) :=
  integrate dt (resolve_collisions (gravity_pass dt ps)).

(** The main loop on the frame times [dts], oldest first. *)
Definition run (dts : list T) (ps : list (Particle T)) : list (Particle T) :=
  fold_left (fun ps dt => physics_step dt ps) dts ps.

End Physics.


(** ** Vocabulary of the statements

    Names for the intermediate values of the two loop bodies, and the
    quantities the properties speak about.  Each is tied to the step by a
    lemma proved by computation. *)

Section Vocabulary.
Context {T : Type} `{Scalar T}.
Local Open Scope scalar_scope.

Section Attraction.
Variables pi pj : Particle T.

(** The locals of the gravity loop body at a pair [(i, j)]. *)
Definition softened_distSq : T :=
  dot (vsub (pos pj) (pos pi)) (vsub (pos pj) (pos pi)) + SOFTENING.
Definition pair_force : T := G * mass pi * mass pj / softened_distSq.
Definition pull_dir : vec2 T :=
  vdivs (vsub (pos pj) (pos pi)) (ssqrt softened_distSq).
End Attraction.

Section Contact.
Variables a b : Particle T.

(** The locals of the collision branch for the pair [(a, b)], under the
    names the source gives them. *)
Definition center_diff : vec2 T := vsub (pos b) (pos a).
Definition center_distSq : T := dot center_diff center_diff.
Definition center_dist : T := ssqrt center_distSq.
Definition radius_sum : T := getRadius (mass a) + getRadius (mass b).

(** [distSq < rSum * rSum] *)
Definition overlapping : bool := sltb center_distSq (radius_sum * radius_sum).
(** [dist < 0.0001f] *)
Definition coincident : bool := sltb center_dist (slit 1 10000).

Definition contact_normal : vec2 T := vdivs center_diff center_dist.
Definition normal_v1 : T := dot (vel a) contact_normal.
Definition normal_v2 : T := dot (vel b) contact_normal.
Definition v1New : T :=
  (normal_v1 * (mass a - mass b) + slit 2 1 * mass b * normal_v2)
  / (mass a + mass b).
Definition v2New : T :=
  (normal_v2 * (mass b - mass a) + slit 2 1 * mass a * normal_v1)
  / (mass a + mass b).
Definition penetration : T := radius_sum - center_dist.
Definition correction : vec2 T :=
  vscale contact_normal (penetration / slit 2 1).

(** The two particles after the impulse and the overlap correction. *)
Definition hit_fst : Particle T :=
  sub_pos correction (add_vel (smulv (v1New - normal_v1) contact_normal) a).
Definition hit_snd : Particle T :=
  add_pos correction (add_vel (smulv (v2New - normal_v2) contact_normal) b).
End Contact.

(** What the inner loop body does to [acc[i]]. *)
Definition gravity_update (ps : list (Particle T)) (i j : nat) (a : vec2 T)
    : vec2 T :=
  if (i =? j)%nat then a
  else match ps !! i, ps !! j with
       | Some pi, Some pj => vadd a (gravity_term pi pj)
       | _, _ => a
       end.

(** The acceleration of the particle [p] at index [i]: the terms of all the
    other particles of [ps], added in index order. *)
Definition net_acceleration (ps : list (Particle T)) (i : nat) (p : Particle T)
    : vec2 T :=
  fold_left
    (fun a j =>
       if (i =? j)%nat then a
       else match ps !! j with
            | Some q => vadd a (gravity_term p q)
            | None => a
            end)
    (seq 0 (length ps)) vzero.

(** The index pairs in the order the gravity double loop visits them. *)
Definition loop_order (n : nat) : list (nat * nat) :=
  flat_map (fun i => map (pair i) (seq 0 n)) (seq 0 n).

(** An order of the index pairs that visits, for every [i < n], the
    partners [j] of [i] in the order [0 .. n-1]; the rows may be interleaved
    in any way.  The source order, a reversed outer loop and the two loops
    exchanged are such orders. *)
Definition rows_in_order (n : nat) (pairs : list (nat * nat)) : Prop :=
  forall k : nat,
    k < n -> map snd (filter (fun ij => fst ij = k) pairs) = seq 0 n.

(** The gravity pass with its iterations taken in another order: the
    acceleration loop body run over [pairs], then the velocity update run
    over [idx]. *)
Definition gravity_pass_in (pairs : list (nat * nat)) (idx : list nat)
    (dt : T) (ps : list (Particle T)) : list (Particle T) :=
  let acc :=
    fold_left (fun acc ij => gravity_body ps (fst ij) (snd ij) acc)
      pairs (replicate (length ps) vzero) in
  fold_left (fun ps i => velocity_body dt acc i ps) idx ps.

(** The concrete scenario: A at (-0.1, 0), B at (0.1, 0), both of mass 1 and
    at rest; one frame of 0.016. *)
Definition scenario_A : Particle T :=
  mkParticle (Vec2 (slit (-1) 10) (slit 0 1)) vzero (slit 1 1).
Definition scenario_B : Particle T :=
  mkParticle (Vec2 (slit 1 10) (slit 0 1)) vzero (slit 1 1).
Definition scenario_dt : T := slit 16 1000.

End Vocabulary.

(** Total momentum and kinetic energy of a particle sequence. *)
Definition momentum (p : Particle R) : vec2 R := smulv (mass p) (vel p).

Definition total_momentum (ps : list (Particle R)) : vec2 R :=
  fold_left (fun s p => vadd s (momentum p)) ps vzero.

Definition kinetic_energy (p : Particle R) : R :=
  (1 / 2 * mass p * dot (vel p) (vel p))%R.

Definition total_kinetic_energy (ps : list (Particle R)) : R :=
  fold_left (fun s p => (s + kinetic_energy p)%R) ps 0%R.

(** Binary32 values that are zeros, and vectors and particles all of whose
    coordinates are finite. *)
Definition is_zero (x : float32) : bool :=
  match x with
  | S754_zero _ => true
  | _ => false
  end.

Definition zero_vec (v : vec2 float32) : bool :=
  is_zero (vx v) && is_zero (vy v).

Definition finite_vec (v : vec2 float32) : bool :=
  is_finite (vx v) && is_finite (vy v).

Definition finite_particle (p : Particle float32) : bool :=
  finite_vec (pos p) && finite_vec (vel p).

(** A particle at the point (0.1, 0), at rest, of mass 1. *)
Definition twin : Particle float32 :=
  mkParticle (Vec2 (slit 1 10) (slit 0 1)) vzero (slit 1 1).

(** A binary32 mass: a valid binary32 value strictly between 2^-32 and
    2^32.  The masses [initParticles] draws, in [0.2, 2.0), are such
    values, and nothing writes a mass afterwards. *)
Definition mass_in_range (m : float32) : bool :=
  valid_binary 24 128 m
  && sltb (slit 1 4294967296) m && sltb m (slit 4294967296 1).

(** The exponent function of binary32, and a bound on the magnitude of a
    value: [mag_le B x] says that [x] is a zero or a finite value below
    [2^B] in absolute value. *)
Definition f32_fexp (e : Z) : Z := Z.max (e - 24) (-149).

Definition mag_le (B : Z) (x : float32) : Prop :=
  match x with
  | S754_zero _ => True
  | S754_finite _ m e => (Zpos (digits2_pos m) + e <= B)%Z
  | _ => False
  end.

(** A NaN among the coordinates of a vector. *)
Definition has_nan (v : vec2 float32) : Prop :=
  vx v = S754_nan \/ vy v = S754_nan.

(** The sum of [f] over a list. *)
Definition Rsum {B : Type} (f : B -> R) (l : list B) : R :=
  fold_right (fun x s => (f x + s)%R) 0%R l.

(** Two equal masses mirrored about the origin. *)
Definition mirrored (a b : Particle R) : Prop :=
  mass a = mass b /\
  (vx (pos a) = - vx (pos b) /\ vy (pos a) = - vy (pos b))%R /\
  (vx (vel a) = - vx (vel b) /\ vy (vel a) = - vy (vel b))%R.

(** An overlapping pair: centers 0.03 apart, radii 0.02 and 0.04. *)
Definition overlap_a : Particle R :=
  (mkParticle (Vec2 0 0) (Vec2 1 0) 1)%R.
Definition overlap_b : Particle R :=
  (mkParticle (Vec2 (3 / 100) 0) (Vec2 (-1) (1 / 2)) 2)%R.

(** ** The rest of [main.cpp]: initialisation, upload and shaders *)

(** [struct GPUData] *)
Module GPU.
Record GPUData (T : Type) : Type := mk { pos : vec2 T; mass : T }.
Arguments mk {T} _ _.
Arguments pos {T} _.
Arguments mass {T} _.
End GPU.

(** GLSL [vec3] and [vec4]. *)
Record vec3 (T : Type) : Type := Vec3 { v3x : T; v3y : T; v3z : T }.
Arguments Vec3 {T} _ _ _.
Arguments v3x {T} _.
Arguments v3y {T} _.
Arguments v3z {T} _.

Record vec4 (T : Type) : Type := Vec4 { v4x : T; v4y : T; v4z : T; v4w : T }.
Arguments Vec4 {T} _ _ _ _.
Arguments v4x {T} _.
Arguments v4y {T} _.
Arguments v4z {T} _.
Arguments v4w {T} _.

(** The outputs of the vertex shader. *)
Record VertexOut (T : Type) : Type := mkVertexOut {
  out_mass : T;
  gl_PointSize : T;
  gl_Position : vec4 T
}.
Arguments mkVertexOut {T} _ _ _.
Arguments out_mass {T} _.
Arguments gl_PointSize {T} _.
Arguments gl_Position {T} _.

Section Program.
Context {T : Type} `{Scalar T}.
Local Open Scope scalar_scope.

Definition PARTICLE_COUNT : nat := 2.

(** [initParticles].  The random engine and the three distributions belong
    to the standard library: [draw i] stands for the values [(x, y, m)]
    drawn from [xDist], [yDist] and [mDist] in iteration [i].  Each
    iteration appends one particle to the global vector. *)
Definition initParticles (draw : nat -> T * T * T)
    (particles : list (Particle T)) : list (Particle T) :=
  fold_left
    (fun ps i =>
       let '(x, y, m) := draw i in
       ps ++ [mkParticle (Vec2 x y) (Vec2 (slit 0 1) (slit 0 1)) m])
    (seq 0 PARTICLE_COUNT) particles.

(** The upload loop: [gpuData.push_back({ p.pos, p.mass })] for each
    particle in order. *)
Definition gpuData (particles : list (Particle T)) : list (GPU.GPUData T) :=
  fold_left (fun g p => g ++ [GPU.mk (pos p) (mass p)]) particles [].

(** The global vector after [initParticles] and the frames of [dts]. *)
Definition program (draw : nat -> T * T * T) (dts : list T)
    : list (Particle T) :=
  run dts (initParticles draw []).

(** Bytes asked of [glBufferData] at start-up and bytes sent by
    [glBufferSubData] in a frame, for a [GPUData] of [size] bytes. *)
Definition buffer_bytes (size : nat) : nat := PARTICLE_COUNT * size.
Definition upload_bytes (size : nat) (g : list (GPU.GPUData T)) : nat :=
  length g * size.

(** *** GLSL built-ins, as the language defines them *)

Definition glsl_max (x y : T) : T := if sltb x y then y else x.
Definition glsl_min (x y : T) : T := if sltb y x then y else x.
Definition clamp (x lo hi : T) : T := glsl_min (glsl_max x lo) hi.
Definition mix (x y a : T) : T := x * (slit 1 1 - a) + y * a.
Definition smoothstep (edge0 edge1 x : T) : T :=
  let t := clamp ((x - edge0) / (edge1 - edge0)) (slit 0 1) (slit 1 1) in
  t * t * (slit 3 1 - slit 2 1 * t).
Definition glsl_length (v : vec2 T) : T := ssqrt (dot v v).

(** *** The vertex shader *)

Definition vertexShader (aPos : vec2 T) (aMass : T) : VertexOut T :=
  mkVertexOut aMass (aMass * slit 10 1)
    (Vec4 (vx aPos) (vy aPos) (slit 0 1) (slit 1 1)).

(** *** The fragment shader; [None] is [discard] *)

Definition fragmentShader (gl_PointCoord : vec2 T) (mass : T)
    : option (vec4 T) :=
  let r := glsl_length (vsub gl_PointCoord (Vec2 (slit 5 10) (slit 5 10))) in
  if sltb (slit 5 10) r then None
  else
    let base := Vec3 (slit 1 10) (slit 6 10) (slit 1 1) in
    let heavy := Vec3 (slit 1 1) (slit 9 10) (slit 2 10) in
    let a := clamp (mass / slit 2 1) (slit 0 1) (slit 1 1) in
    let color :=
      Vec3 (mix (v3x base) (v3x heavy) a) (mix (v3y base) (v3y heavy) a)
           (mix (v3z base) (v3z heavy) a) in
    let alpha := slit 1 1 - smoothstep (slit 45 100) (slit 5 10) r in
    Some (Vec4 (v3x color) (v3y color) (v3z color) alpha).

(** What the pipeline draws for a particle at a point of its sprite. *)
Definition draw_fragment (g : GPU.GPUData T) (gl_PointCoord : vec2 T)
    : option (vec4 T) :=
  fragmentShader gl_PointCoord (out_mass (vertexShader (GPU.pos g) (GPU.mass g))).

End Program.

(** The draws of [initParticles] are within the bounds of the three
    distributions: positions in [-0.8, 0.8), masses in [0.2, 2.0). *)
Definition draws_in_range (draw : nat -> R * R * R) : Prop :=
  forall i : nat,
    let '(x, y, m) := draw i in
    (- (8 / 10) <= x < 8 / 10 /\ - (8 / 10) <= y < 8 / 10 /\
     2 / 10 <= m < 2)%R.

(** Every mass of the sequence is positive. *)
Definition positive_masses (ps : list (Particle R)) : Prop :=
  Forall (fun m => (0 < m)%R) (map mass ps).

(** The sum of the frame times. *)
Definition elapsed (dts : list R) : R := Rsum (fun dt => dt) dts.

(** * Properties of the step *)

(** ** Frame facts: what a step never touches

  These hold at every scalar instance. *)

Section Frame.
Context {T : Type} `{Scalar T}.

Lemma fold_left_preserves {A B : Type} (P : A -> Prop) (f : A -> B -> A)
    (l : list B) (a : A) :
  P a -> (forall a x, P a -> P (f a x)) -> P (fold_left f l a).
Proof.
  intros Ha Hf. revert a Ha.
  induction l as [|x l IH]; intros a Ha; simpl; auto.
Qed.

Lemma masses_alter (f : Particle T -> Particle T) (i : nat)
    (ps : list (Particle T)) :
  (forall p, mass (f p) = mass p) ->
  map mass (alter f i ps) = map mass ps.
Proof.
  intros Hf. revert i.
  induction ps as [|p ps IH]; intros [|i]; simpl; auto.
  - now rewrite Hf.
  - f_equal. apply IH.
Qed.

Lemma masses_velocity_body (dt : T) acc i (ps : list (Particle T)) :
  map mass (velocity_body dt acc i ps) = map mass ps.
Proof.
  unfold velocity_body. destruct (acc !! i); auto.
  now apply masses_alter.
Qed.

Lemma masses_gravity_pass (dt : T) (ps : list (Particle T)) :
  map mass (gravity_pass dt ps) = map mass ps.
Proof.
  unfold gravity_pass, apply_acceleration.
  apply (fold_left_preserves (fun l => map mass l = map mass ps)); auto.
  intros a x Ha. now rewrite masses_velocity_body.
Qed.

Lemma masses_resolve_pair i j (ps : list (Particle T)) :
  map mass (resolve_pair i j ps) = map mass ps.
Proof.
  unfold resolve_pair.
  destruct (ps !! i) as [pi|]; auto.
  destruct (ps !! j) as [pj|]; auto.
  cbv zeta.
  destruct (sltb _ _); auto.
  destruct (sltb _ _); auto.
  now rewrite !masses_alter.
Qed.

Lemma masses_resolve_collisions (ps : list (Particle T)) :
  map mass (resolve_collisions ps) = map mass ps.
Proof.
  unfold resolve_collisions.
  apply (fold_left_preserves (fun l => map mass l = map mass ps)); auto.
  intros a i Ha.
  apply (fold_left_preserves (fun l => map mass l = map mass ps)); auto.
  intros b j Hb. now rewrite masses_resolve_pair.
Qed.

Lemma masses_integrate (dt : T) (ps : list (Particle T)) :
  map mass (integrate dt ps) = map mass ps.
Proof.
  unfold integrate. rewrite map_map. now apply map_ext.
Qed.

Lemma masses_physics_step (dt : T) (ps : list (Particle T)) :
  map mass (physics_step dt ps) = map mass ps.
Proof.
  unfold physics_step.
  now rewrite masses_integrate, masses_resolve_collisions, masses_gravity_pass.
Qed.

(** C8. One full physics step (gravity pass, collision pass, position
    integration) keeps the number of particles, and keeps the mass of the
    particle at every index: only [pos] and [vel] are written. *)
Theorem physics_step_frame (dt : T) (ps : list (Particle T)) :
  length (physics_step dt ps) = length ps /\
  forall i : nat, mass <$> (physics_step dt ps !! i) = mass <$> (ps !! i).
Proof.
  pose proof (masses_physics_step dt ps) as Hm.
  split.
  - rewrite <- (length_map mass), Hm. apply length_map.
  - intros i. rewrite <- !list_lookup_fmap. f_equal. exact Hm.
Qed.

End Frame.


(** ** Two particles

  With two particles the loops run a fixed number of iterations: the
  gravity pass adds one term to each acceleration, and the collision pass
  visits the single pair (0, 1). *)

Section TwoParticles.
Context {T : Type} `{Scalar T}.
Local Open Scope scalar_scope.

Lemma gravity_pass_two (dt : T) (a b : Particle T) :
  gravity_pass dt [a; b] =
  [add_vel (vscale (vadd vzero (gravity_term a b)) dt) a;
   add_vel (vscale (vadd vzero (gravity_term b a)) dt) b].
Proof. reflexivity. Qed.

Lemma resolve_collisions_two (a b : Particle T) :
  resolve_collisions [a; b] =
  if overlapping a b
  then if coincident a b then [a; b] else [hit_fst a b; hit_snd a b]
  else [a; b].
Proof. reflexivity. Qed.

Lemma physics_step_two (dt : T) (a b : Particle T) :
  physics_step dt [a; b] =
  integrate dt
    (resolve_collisions
       [add_vel (vscale (vadd vzero (gravity_term a b)) dt) a;
        add_vel (vscale (vadd vzero (gravity_term b a)) dt) b]).
Proof. reflexivity. Qed.

End TwoParticles.


(** ** The gravity loops, at every scalar instance *)

Section Loops.
Context {T : Type} `{Scalar T}.

Lemma fold_left_ext_in {A B : Type} (f g : A -> B -> A) (l : list B) (a : A) :
  (forall a x, In x l -> f a x = g a x) ->
  fold_left f l a = fold_left g l a.
Proof.
  revert a. induction l as [|x l IH]; intros a Hfg; [reflexivity|].
  cbn [fold_left]. rewrite (Hfg a x) by (left; reflexivity).
  apply IH. intros a' y Hy. apply Hfg. now right.
Qed.

(** Many updates of one cell are one update of that cell. *)
Lemma fold_alter_same {A B : Type} (F : B -> A -> A) (i : nat) (js : list B)
    (l : list A) :
  fold_left (fun l j => alter (F j) i l) js l =
  alter (fun a => fold_left (fun a j => F j a) js a) i l.
Proof.
  revert l. induction js as [|j js IH]; intros l; cbn [fold_left].
  - symmetry. now apply list_alter_id.
  - rewrite IH, list_alter_alter_eq. reflexivity.
Qed.

(** A loop [for i in s..s+m-1: l[i] := U i l[i]] updates each cell of its
    range once and no other. *)
Lemma fold_alter_each {A : Type} (U : nat -> A -> A) (s m : nat) (l : list A)
    (k : nat) :
  fold_left (fun l i => alter (U i) i l) (seq s m) l !! k =
  if decide (s <= k < s + m) then U k <$> l !! k else l !! k.
Proof.
  revert s l. induction m as [|m IH]; intros s l; cbn [seq fold_left].
  - case_decide; [lia|reflexivity].
  - rewrite IH. destruct (decide (k = s)) as [->|Hne].
    + rewrite list_lookup_alter_eq.
      repeat case_decide; try lia; reflexivity.
    + rewrite list_lookup_alter_ne by congruence.
      repeat case_decide; try lia; reflexivity.
Qed.

Lemma gravity_body_alter (ps : list (Particle T)) (i j : nat)
    (acc : list (vec2 T)) :
  gravity_body ps i j acc = alter (gravity_update ps i j) i acc.
Proof.
  unfold gravity_body, gravity_update.
  destruct (i =? j)%nat; [symmetry; now apply list_alter_id|].
  destruct (ps !! i) as [pi|]; [|symmetry; now apply list_alter_id].
  destruct (ps !! j) as [pj|]; [reflexivity|symmetry; now apply list_alter_id].
Qed.

Lemma gravity_loops_lookup (ps : list (Particle T)) (acc0 : list (vec2 T))
    (k : nat) :
  gravity_loops ps acc0 !! k =
  if decide (k < length ps)
  then (fun a => fold_left (fun a j => gravity_update ps k j a)
                   (seq 0 (length ps)) a) <$> acc0 !! k
  else acc0 !! k.
Proof.
  unfold gravity_loops.
  rewrite (fold_left_ext_in _
    (fun acc i => alter (fun a => fold_left (fun a j => gravity_update ps i j a)
                                    (seq 0 (length ps)) a) i acc)).
  - rewrite fold_alter_each. repeat case_decide; try lia; reflexivity.
  - intros acc i _. rewrite <- fold_alter_same.
    apply fold_left_ext_in. intros acc' j _. apply gravity_body_alter.
Qed.

(** Every acceleration is a function of the particle sequence the pass
    started from. *)
Lemma accumulate_gravity_lookup (ps : list (Particle T)) (k : nat)
    (p : Particle T) :
  ps !! k = Some p ->
  accumulate_gravity ps !! k = Some (net_acceleration ps k p).
Proof.
  intros Hk. pose proof (lookup_lt_Some _ _ _ Hk) as Hlt.
  unfold accumulate_gravity. rewrite gravity_loops_lookup.
  rewrite decide_True by exact Hlt.
  rewrite lookup_replicate_2 by exact Hlt. cbn [fmap option_fmap option_map].
  f_equal. unfold net_acceleration.
  apply fold_left_ext_in. intros a j _.
  unfold gravity_update. rewrite Hk. reflexivity.
Qed.

Lemma velocity_body_alter (dt : T) (acc : list (vec2 T)) (i : nat)
    (ps : list (Particle T)) :
  velocity_body dt acc i ps =
  alter (fun p => match acc !! i with
                  | Some a => add_vel (vscale a dt) p
                  | None => p
                  end) i ps.
Proof.
  unfold velocity_body.
  destruct (acc !! i); [reflexivity|symmetry; now apply list_alter_id].
Qed.

(** The gravity pass, particle by particle: position and mass are kept and
    the velocity gains [dt] times the acceleration computed from the
    sequence before the pass. *)
Lemma gravity_pass_lookup (dt : T) (ps : list (Particle T)) (k : nat)
    (p : Particle T) :
  ps !! k = Some p ->
  gravity_pass dt ps !! k =
  Some (add_vel (vscale (net_acceleration ps k p) dt) p).
Proof.
  intros Hk. pose proof (lookup_lt_Some _ _ _ Hk) as Hlt.
  unfold gravity_pass, apply_acceleration.
  rewrite (fold_left_ext_in _ _ _ _
             (fun l i _ => velocity_body_alter dt (accumulate_gravity ps) i l)).
  rewrite (fold_alter_each
             (fun i p => match accumulate_gravity ps !! i with
                         | Some a => add_vel (vscale a dt) p
                         | None => p
                         end)).
  rewrite decide_True by lia.
  rewrite Hk, (accumulate_gravity_lookup ps k p Hk). reflexivity.
Qed.

Lemma gravity_pass_length (dt : T) (ps : list (Particle T)) :
  length (gravity_pass dt ps) = length ps.
Proof.
  rewrite <- (length_map mass), masses_gravity_pass. apply length_map.
Qed.

(** The nested loops visit the pairs of [loop_order]. *)
Lemma fold_left_flat_map {A B C : Type} (f : A -> C -> A) (g : B -> list C)
    (l : list B) (a : A) :
  fold_left f (flat_map g l) a = fold_left (fun a x => fold_left f (g x) a) l a.
Proof.
  revert a. induction l as [|x l IH]; intros a; [reflexivity|].
  cbn [flat_map fold_left]. now rewrite fold_left_app, IH.
Qed.

Lemma fold_left_map_arg {A B C : Type} (f : A -> C -> A) (g : B -> C)
    (l : list B) (a : A) :
  fold_left f (map g l) a = fold_left (fun a x => f a (g x)) l a.
Proof.
  revert a. induction l as [|x l IH]; intros a; [reflexivity|].
  cbn [map fold_left]. apply IH.
Qed.

Lemma gravity_pass_in_loop_order (dt : T) (ps : list (Particle T)) :
  gravity_pass_in (loop_order (length ps)) (seq 0 (length ps)) dt ps =
  gravity_pass dt ps.
Proof.
  unfold gravity_pass_in, gravity_pass, apply_acceleration,
    accumulate_gravity, gravity_loops, loop_order.
  rewrite fold_left_flat_map.
  rewrite (fold_left_ext_in _
    (fun acc i => fold_left (fun acc j => gravity_body ps i j acc)
                    (seq 0 (length ps)) acc)); [reflexivity|].
  intros acc i _. now rewrite fold_left_map_arg.
Qed.

(** A loop of single-cell updates, cell by cell: cell [k] receives, in
    order, the updates addressed to it. *)
Lemma fold_alter_lookup {A B : Type} (F : B -> A -> A) (ix : B -> nat)
    (xs : list B) (l : list A) (k : nat) :
  fold_left (fun l x => alter (F x) (ix x) l) xs l !! k =
  (fun a => fold_left (fun a x => F x a) (filter (fun x => ix x = k) xs) a)
    <$> l !! k.
Proof.
  revert l. induction xs as [|x xs IH]; intros l; cbn [fold_left].
  - now destruct (l !! k).
  - rewrite IH, list_lookup_alter. case_decide as Hx.
    + rewrite filter_cons_True by exact Hx. rewrite Hx.
      now destruct (l !! k).
    + now rewrite filter_cons_False by exact Hx.
Qed.

Lemma gravity_rows (ps : list (Particle T)) (pairs : list (nat * nat)) :
  rows_in_order (length ps) pairs ->
  fold_left (fun acc ij => gravity_body ps (fst ij) (snd ij) acc) pairs
    (replicate (length ps) vzero) =
  accumulate_gravity ps.
Proof.
  intros Hrows. apply list_eq. intros k.
  rewrite (fold_left_ext_in _
    (fun acc ij => alter (gravity_update ps (fst ij) (snd ij)) (fst ij) acc))
    by (intros acc ij _; apply gravity_body_alter).
  rewrite (fold_alter_lookup (fun ij => gravity_update ps (fst ij) (snd ij)) fst).
  unfold accumulate_gravity. rewrite gravity_loops_lookup.
  case_decide as Hk.
  - rewrite <- (Hrows k Hk).
    destruct (replicate (length ps) vzero !! k) as [a|]; [|reflexivity].
    cbn [fmap option_fmap option_map]. f_equal.
    rewrite fold_left_map_arg. apply fold_left_ext_in.
    intros a' ij Hij. apply list_elem_of_In, list_elem_of_filter in Hij as [<- _].
    reflexivity.
  - assert (Hnone : replicate (length ps) (vzero (T:=T)) !! k = None)
      by (apply lookup_replicate_None; lia).
    now rewrite Hnone.
Qed.

Lemma filter_eq_NoDup (k : nat) (idx : list nat) :
  NoDup idx ->
  filter (fun i => i = k) idx = if decide (k ∈ idx) then [k] else [].
Proof.
  induction idx as [|i idx IH]; intros Hnd; [reflexivity|].
  apply NoDup_cons in Hnd as [Hi Hnd]. specialize (IH Hnd).
  destruct (decide (i = k)) as [->|Hne].
  - rewrite filter_cons_True by reflexivity.
    rewrite decide_False in IH by exact Hi. rewrite IH.
    rewrite decide_True by (apply elem_of_cons; now left). reflexivity.
  - rewrite filter_cons_False by exact Hne. rewrite IH.
    destruct (decide (k ∈ idx)) as [Hin|Hout].
    + rewrite decide_True by (apply elem_of_cons; now right). reflexivity.
    + rewrite decide_False; [reflexivity|].
      intros [Heq|Hin]%elem_of_cons; [congruence|contradiction].
Qed.

Lemma velocity_loop_any_order (dt : T) (acc : list (vec2 T))
    (ps : list (Particle T)) (idx : list nat) :
  Permutation idx (seq 0 (length ps)) ->
  fold_left (fun ps i => velocity_body dt acc i ps) idx ps =
  apply_acceleration dt acc ps.
Proof.
  intros Hperm. apply list_eq. intros k. unfold apply_acceleration.
  rewrite !(fold_left_ext_in _ _ _ _
              (fun l i _ => velocity_body_alter dt acc i l)).
  rewrite (fold_alter_each
             (fun i p => match acc !! i with
                         | Some a => add_vel (vscale a dt) p
                         | None => p
                         end)).
  rewrite (fold_alter_lookup
             (fun i p => match acc !! i with
                         | Some a => add_vel (vscale a dt) p
                         | None => p
                         end) (fun i => i)).
  rewrite filter_eq_NoDup by (rewrite Hperm; apply NoDup_seq).
  destruct (ps !! k) as [p|] eqn:Hk; [|repeat case_decide; reflexivity].
  pose proof (lookup_lt_Some _ _ _ Hk) as Hlt.
  rewrite decide_True by (rewrite Hperm; apply elem_of_seq; lia).
  rewrite decide_True by lia. reflexivity.
Qed.

(** Interleaving the rows of the double loop, and permuting the velocity
    loop, changes nothing: no arithmetic is reordered. *)
Lemma gravity_pass_in_rows (dt : T) (ps : list (Particle T))
    (pairs : list (nat * nat)) (idx : list nat) :
  rows_in_order (length ps) pairs ->
  Permutation idx (seq 0 (length ps)) ->
  gravity_pass_in pairs idx dt ps = gravity_pass dt ps.
Proof.
  intros Hrows Hperm. unfold gravity_pass_in, gravity_pass.
  rewrite (gravity_rows ps pairs Hrows).
  now apply velocity_loop_any_order.
Qed.

End Loops.

(** ** Exact arithmetic: the collision pass *)

Section ExactCollision.
Local Open Scope R_scope.

Lemma vec2_eq (u v : vec2 R) : vx u = vx v -> vy u = vy v -> u = v.
Proof. destruct u, v; simpl; intros -> ->; reflexivity. Qed.

Lemma sltb_R_true (x y : R) : sltb x y = true <-> x < y.
Proof.
  cbn [sltb R_scalar].
  destruct (Rlt_dec x y); split; intros; auto; try discriminate; contradiction.
Qed.

Lemma sltb_R_false (x y : R) : sltb x y = false <-> y <= x.
Proof.
  cbn [sltb R_scalar].
  destruct (Rlt_dec x y); split; intros; auto; try discriminate; lra.
Qed.

Lemma center_distSq_nonneg (a b : Particle R) : 0 <= center_distSq a b.
Proof.
  unfold center_distSq, dot. cbn [sadd smul R_scalar]. nra.
Qed.

(** Past the [dist < 0.0001f] guard the distance is positive. *)
Lemma center_dist_pos (a b : Particle R) :
  coincident a b = false -> 0 < center_dist a b.
Proof.
  unfold coincident. rewrite sltb_R_false.
  cbn [slit R_scalar]. lra.
Qed.

Lemma center_dist_sqr (a b : Particle R) :
  center_dist a b * center_dist a b = center_distSq a b.
Proof. apply sqrt_sqrt, center_distSq_nonneg. Qed.

(** Past the guard the contact normal has length one. *)
Lemma contact_normal_unit (a b : Particle R) :
  coincident a b = false ->
  vx (contact_normal a b) * vx (contact_normal a b) +
  vy (contact_normal a b) * vy (contact_normal a b) = 1.
Proof.
  intros Hc. pose proof (center_dist_pos a b Hc) as Hd.
  pose proof (center_dist_sqr a b) as Hs.
  unfold contact_normal, vdivs. cbn [vx vy sdiv R_scalar].
  unfold center_distSq, dot in Hs. cbn [sadd smul R_scalar] in Hs.
  set (d := center_dist a b) in *.
  set (dx := vx (center_diff a b)) in *.
  set (dy := vy (center_diff a b)) in *.
  replace (dx / d * (dx / d) + dy / d * (dy / d))
    with ((dx * dx + dy * dy) / (d * d)) by (field; lra).
  rewrite <- Hs. field. lra.
Qed.

(** The impulses of the two particles cancel in the momentum sum. *)
Lemma impulses_cancel (a b : Particle R) :
  0 < mass a -> 0 < mass b ->
  mass a * (v1New a b - normal_v1 a b) +
  mass b * (v2New a b - normal_v2 a b) = 0.
Proof.
  intros Ha Hb. unfold v1New, v2New.
  cbn [sadd ssub smul sdiv slit R_scalar].
  field. lra.
Qed.

(** C2. Across the collision resolution step of two particles (no
    gravity involved), the total momentum [m1 * vel1 + m2 * vel2] is the
    same vector before and after, in exact arithmetic. *)
Theorem collision_conserves_momentum (a b : Particle R) :
  0 < mass a -> 0 < mass b ->
  total_momentum (resolve_collisions [a; b]) = total_momentum [a; b].
Proof.
  intros Ha Hb. rewrite resolve_collisions_two.
  destruct (overlapping a b); [|reflexivity].
  destruct (coincident a b); [reflexivity|].
  pose proof (impulses_cancel a b Ha Hb) as Hi.
  unfold total_momentum, momentum, hit_fst, hit_snd.
  cbn [fold_left add_vel sub_pos add_pos vel mass ssub R_scalar].
  set (d1 := v1New a b - normal_v1 a b) in *.
  set (d2 := v2New a b - normal_v2 a b) in *.
  set (n := contact_normal a b).
  apply vec2_eq; cbn [vx vy vadd smulv vzero sadd smul slit R_scalar].
  - replace (0 / 1 + mass a * (vx (vel a) + d1 * vx n)
             + mass b * (vx (vel b) + d2 * vx n))
      with (0 / 1 + mass a * vx (vel a) + mass b * vx (vel b)
            + (mass a * d1 + mass b * d2) * vx n) by ring.
    rewrite Hi. ring.
  - replace (0 / 1 + mass a * (vy (vel a) + d1 * vy n)
             + mass b * (vy (vel b) + d2 * vy n))
      with (0 / 1 + mass a * vy (vel a) + mass b * vy (vel b)
            + (mass a * d1 + mass b * d2) * vy n) by ring.
    rewrite Hi. ring.
Qed.

(** The one-dimensional elastic law: with a unit normal, the impulses
    leave the kinetic energy along the normal unchanged. *)
Lemma elastic_energy_balance (m1 m2 ax ay bx by' nx ny : R) :
  0 < m1 -> 0 < m2 -> nx * nx + ny * ny = 1 ->
  let v1 := ax * nx + ay * ny in
  let v2 := bx * nx + by' * ny in
  let d1 := (v1 * (m1 - m2) + 2 / 1 * m2 * v2) / (m1 + m2) - v1 in
  let d2 := (v2 * (m2 - m1) + 2 / 1 * m1 * v1) / (m1 + m2) - v2 in
  0 + 1 / 2 * m1 * ((ax + d1 * nx) * (ax + d1 * nx) + (ay + d1 * ny) * (ay + d1 * ny))
    + 1 / 2 * m2 * ((bx + d2 * nx) * (bx + d2 * nx) + (by' + d2 * ny) * (by' + d2 * ny))
  = 0 + 1 / 2 * m1 * (ax * ax + ay * ay) + 1 / 2 * m2 * (bx * bx + by' * by').
Proof.
  intros H1 H2 Hn v1 v2 d1 d2.
  assert (Hd1 : d1 = 2 * m2 * (v2 - v1) / (m1 + m2))
    by (unfold d1; field; lra).
  assert (Hd2 : d2 = 2 * m1 * (v1 - v2) / (m1 + m2))
    by (unfold d2; field; lra).
  replace (0 + 1 / 2 * m1 * ((ax + d1 * nx) * (ax + d1 * nx) + (ay + d1 * ny) * (ay + d1 * ny))
    + 1 / 2 * m2 * ((bx + d2 * nx) * (bx + d2 * nx) + (by' + d2 * ny) * (by' + d2 * ny)))
    with (0 + 1 / 2 * m1 * (ax * ax + ay * ay) + 1 / 2 * m2 * (bx * bx + by' * by')
          + (m1 * d1 * v1 + m2 * d2 * v2
             + 1 / 2 * (m1 * d1 * d1 + m2 * d2 * d2) * (nx * nx + ny * ny)))
    by (clearbody d1 d2; unfold v1, v2; field).
  rewrite Hn, Hd1, Hd2. field. lra.
Qed.

(** C3. Across the collision resolution step of two particles, the total
    kinetic energy [1/2 m1 |vel1|^2 + 1/2 m2 |vel2|^2] is the same before
    and after, in exact arithmetic. *)
Theorem collision_conserves_kinetic_energy (a b : Particle R) :
  0 < mass a -> 0 < mass b ->
  total_kinetic_energy (resolve_collisions [a; b]) =
  total_kinetic_energy [a; b].
Proof.
  intros Ha Hb. rewrite resolve_collisions_two.
  destruct (overlapping a b); [|reflexivity].
  destruct (coincident a b) eqn:Hc; [reflexivity|].
  pose proof (contact_normal_unit a b Hc) as Hn.
  unfold total_kinetic_energy, kinetic_energy, hit_fst, hit_snd.
  unfold v1New, v2New, normal_v1, normal_v2.
  set (n := contact_normal a b) in *.
  cbn [fold_left add_vel sub_pos add_pos vel mass dot vadd smulv vx vy
       sadd ssub smul sdiv slit R_scalar].
  now apply elastic_energy_balance.
Qed.

(** After the correction the centers are exactly [rSum] apart (up to the
    sign of [rSum]). *)
Lemma hit_distSq (a b : Particle R) :
  coincident a b = false ->
  center_distSq (hit_fst a b) (hit_snd a b) = radius_sum a b * radius_sum a b.
Proof.
  intros Hc. pose proof (center_dist_pos a b Hc) as Hd.
  pose proof (contact_normal_unit a b Hc) as Hn.
  assert (Hx : vx (center_diff a b) = vx (contact_normal a b) * center_dist a b).
  { unfold contact_normal, vdivs. cbn [vx sdiv R_scalar]. field. lra. }
  assert (Hy : vy (center_diff a b) = vy (contact_normal a b) * center_dist a b).
  { unfold contact_normal, vdivs. cbn [vy sdiv R_scalar]. field. lra. }
  unfold center_diff, vsub in Hx, Hy. cbn [vx vy ssub R_scalar] in Hx, Hy.
  unfold center_distSq, center_diff, hit_fst, hit_snd, correction, penetration.
  set (n := contact_normal a b) in *.
  set (d := center_dist a b) in *.
  set (r := radius_sum a b).
  cbn [add_vel sub_pos add_pos pos dot vadd vsub vscale vx vy
       sadd ssub smul sdiv slit R_scalar].
  replace (vx (pos b) + vx n * ((r - d) / (2 / 1)) - (vx (pos a) - vx n * ((r - d) / (2 / 1))))
    with (vx (pos b) - vx (pos a) + vx n * (r - d)) by field.
  replace (vy (pos b) + vy n * ((r - d) / (2 / 1)) - (vy (pos a) - vy n * ((r - d) / (2 / 1))))
    with (vy (pos b) - vy (pos a) + vy n * (r - d)) by field.
  rewrite Hx, Hy.
  replace ((vx n * d + vx n * (r - d)) * (vx n * d + vx n * (r - d))
           + (vy n * d + vy n * (r - d)) * (vy n * d + vy n * (r - d)))
    with (r * r * (vx n * vx n + vy n * vy n)) by ring.
  rewrite Hn. ring.
Qed.

(** C5. With exactly two particles, when the pair is detected as
    overlapping ([distSq < rSum^2]) and passes the [dist < 0.0001f] guard,
    the collision resolution step leaves the two centers at least
    [radius_i + radius_j - epsilon] apart, for every [epsilon >= 0]. *)
Theorem overlap_resolved (a b : Particle R) (eps : R) :
  0 <= eps ->
  overlapping a b = true ->
  coincident a b = false ->
  exists a' b' : Particle R,
    resolve_collisions [a; b] = [a'; b'] /\
    getRadius (mass a') + getRadius (mass b') - eps <= center_dist a' b'.
Proof.
  intros He Ho Hc. exists (hit_fst a b), (hit_snd a b). split.
  - rewrite resolve_collisions_two, Ho, Hc. reflexivity.
  - unfold center_dist. cbn [ssqrt R_scalar].
    rewrite (hit_distSq a b Hc).
    change (getRadius (mass (hit_fst a b)) + getRadius (mass (hit_snd a b)))
      with (radius_sum a b).
    change (radius_sum a b * radius_sum a b) with (Rsqr (radius_sum a b)).
    rewrite sqrt_Rsqr_abs.
    pose proof (Rle_abs (radius_sum a b)). lra.
Qed.

(** The overlapping pair used as a concrete instance. *)
Lemma overlap_pair_dist : center_dist overlap_a overlap_b = 3 / 100.
Proof.
  unfold center_dist, center_distSq, center_diff, dot, vsub.
  cbn [overlap_a overlap_b pos vx vy sadd ssub smul ssqrt R_scalar].
  replace ((3 / 100 - 0) * (3 / 100 - 0) + (0 - 0) * (0 - 0))
    with (3 / 100 * (3 / 100)) by ring.
  apply sqrt_square. lra.
Qed.

Lemma overlap_pair_overlapping : overlapping overlap_a overlap_b = true.
Proof.
  apply sltb_R_true.
  unfold center_distSq, center_diff, radius_sum, getRadius, RADIUS_SCALE, dot, vsub.
  cbn [overlap_a overlap_b pos mass vx vy sadd ssub smul sdiv slit R_scalar].
  lra.
Qed.

Lemma overlap_pair_not_coincident : coincident overlap_a overlap_b = false.
Proof.
  apply sltb_R_false. rewrite overlap_pair_dist.
  cbn [slit R_scalar]. lra.
Qed.

Lemma collision_conserves_momentum_witness :
  (0 < mass overlap_a /\ 0 < mass overlap_b) /\
  total_momentum (resolve_collisions [overlap_a; overlap_b]) =
  total_momentum [overlap_a; overlap_b].
Proof.
  assert (Ha : 0 < mass overlap_a) by (simpl; lra).
  assert (Hb : 0 < mass overlap_b) by (simpl; lra).
  split; [split; assumption|].
  exact (collision_conserves_momentum overlap_a overlap_b Ha Hb).
Defined.

Lemma collision_conserves_kinetic_energy_witness :
  (0 < mass overlap_a /\ 0 < mass overlap_b) /\
  total_kinetic_energy (resolve_collisions [overlap_a; overlap_b]) =
  total_kinetic_energy [overlap_a; overlap_b].
Proof.
  assert (Ha : 0 < mass overlap_a) by (simpl; lra).
  assert (Hb : 0 < mass overlap_b) by (simpl; lra).
  split; [split; assumption|].
  exact (collision_conserves_kinetic_energy overlap_a overlap_b Ha Hb).
Defined.

Lemma overlap_resolved_witness :
  exists a' b' : Particle R,
    resolve_collisions [overlap_a; overlap_b] = [a'; b'] /\
    getRadius (mass a') + getRadius (mass b') - 1 / 1000 <= center_dist a' b'.
Proof.
  apply (overlap_resolved overlap_a overlap_b (1 / 1000)).
  - lra.
  - exact overlap_pair_overlapping.
  - exact overlap_pair_not_coincident.
Defined.

End ExactCollision.


(** ** Exact arithmetic: the concrete scenario *)

Section ExactScenario.
Local Open Scope R_scope.

Lemma gravity_term_eq {T : Type} `{Scalar T} (pi pj : Particle T) :
  gravity_term pi pj =
  vscale (pull_dir pi pj) (sdiv (pair_force pi pj) (mass pi)).
Proof. reflexivity. Qed.

Lemma scenario_softened_AB :
  softened_distSq (T:=R) scenario_A scenario_B = 5 / 100.
Proof.
  unfold softened_distSq, dot, vsub, SOFTENING.
  cbn [scenario_A scenario_B pos vx vy sadd ssub smul sdiv slit R_scalar].
  field.
Qed.

Lemma scenario_softened_BA :
  softened_distSq (T:=R) scenario_B scenario_A = 5 / 100.
Proof.
  unfold softened_distSq, dot, vsub, SOFTENING.
  cbn [scenario_A scenario_B pos vx vy sadd ssub smul sdiv slit R_scalar].
  field.
Qed.

Lemma sqrt_5_100_bounds :
  223606 / 1000000 < sqrt (5 / 100) < 223607 / 1000000.
Proof.
  assert (H5 : 0 <= 5 / 100) by lra.
  pose proof (sqrt_sqrt _ H5) as Hs.
  pose proof (sqrt_pos (5 / 100)) as Hp.
  set (s := sqrt (5 / 100)) in *.
  split; nra.
Qed.

(** The acceleration of A: the force 20 scaled by [0.2 / sqrt 0.05], the
    separation over the softened distance. *)
Lemma scenario_term_AB :
  gravity_term (T:=R) scenario_A scenario_B = Vec2 (4 / sqrt (5 / 100)) 0.
Proof.
  pose proof sqrt_5_100_bounds as Hs.
  rewrite gravity_term_eq. unfold pull_dir, pair_force.
  rewrite scenario_softened_AB.
  unfold vscale, vdivs, vsub, G.
  cbn [scenario_A scenario_B pos mass vx vy sadd ssub smul sdiv ssqrt slit R_scalar].
  apply vec2_eq; cbn [vx vy]; field; lra.
Qed.

Lemma scenario_term_BA :
  gravity_term (T:=R) scenario_B scenario_A = Vec2 (- (4 / sqrt (5 / 100))) 0.
Proof.
  pose proof sqrt_5_100_bounds as Hs.
  rewrite gravity_term_eq. unfold pull_dir, pair_force.
  rewrite scenario_softened_BA.
  unfold vscale, vdivs, vsub, G.
  cbn [scenario_A scenario_B pos mass vx vy sadd ssub smul sdiv ssqrt slit R_scalar].
  apply vec2_eq; cbn [vx vy]; field; lra.
Qed.

Lemma scenario_acc_bounds :
  17888 / 1000 < 4 / sqrt (5 / 100) < 17889 / 1000.
Proof.
  pose proof sqrt_5_100_bounds as Hs.
  set (s := sqrt (5 / 100)) in *.
  assert (Hq : 4 / s * s = 4) by (field; lra).
  set (q := 4 / s) in *.
  split; nra.
Qed.

Lemma particle_eq (p q : Particle R) :
  pos p = pos q -> vel p = vel q -> mass p = mass q -> p = q.
Proof. destruct p, q; simpl; intros -> -> ->; reflexivity. Qed.

Lemma scenario_radius_sum :
  radius_sum (T:=R) scenario_A scenario_B = 4 / 100.
Proof.
  unfold radius_sum, getRadius, RADIUS_SCALE.
  cbn [scenario_A scenario_B mass sadd smul sdiv slit R_scalar]. field.
Qed.

(** Radii 0.02 each against a separation of 0.2: no collision. *)
Lemma scenario_no_overlap :
  overlapping (T:=R) scenario_A scenario_B = false.
Proof.
  apply sltb_R_false. rewrite scenario_radius_sum.
  unfold center_distSq, center_diff, dot, vsub.
  cbn [scenario_A scenario_B pos vx vy sadd ssub smul sdiv slit R_scalar].
  lra.
Qed.

(** The scenario after one frame, with [v] the speed gained. *)
Lemma scenario_step_eq :
  let v := 4 / sqrt (5 / 100) * (16 / 1000) in
  physics_step (T:=R) scenario_dt [scenario_A; scenario_B] =
  [ mkParticle (Vec2 (- (1 / 10) + v * (16 / 1000)) 0) (Vec2 v 0) 1;
    mkParticle (Vec2 (1 / 10 - v * (16 / 1000)) 0) (Vec2 (- v) 0) 1 ].
Proof.
  intros v. rewrite physics_step_two, resolve_collisions_two.
  rewrite scenario_term_AB, scenario_term_BA.
  match goal with |- context [overlapping ?a ?b] =>
    assert (Ho : overlapping a b = false) end.
  { apply sltb_R_false.
    unfold center_distSq, center_diff, radius_sum, getRadius, RADIUS_SCALE,
      dot, vsub, add_vel.
    cbn [scenario_A scenario_B pos mass vx vy sadd ssub smul sdiv slit R_scalar].
    lra. }
  rewrite Ho. unfold integrate, scenario_dt, add_pos, add_vel, vadd, vscale, vzero.
  cbn [map scenario_A scenario_B pos vel mass vx vy sadd ssub smul sdiv slit R_scalar].
  unfold v, vzero. cbn [vx vy slit R_scalar].
  pose proof sqrt_5_100_bounds as Hs.
  f_equal; [|f_equal]; apply particle_eq; cbn [pos vel mass];
    try (apply vec2_eq; cbn [vx vy]); field; lra.
Qed.

(** C1, as the code has it.  In the concrete scenario the radii sum to
    0.04, so there is no collision, the softened squared distance is 0.05
    and the pairwise force is 20, but the direction
    [diff / dist] is divided by the softened distance, so its length is
    [0.2 / sqrt 0.05] and each particle accelerates toward the other at
    [4 / sqrt 0.05], between 17.888 and 17.889, along x.  After one frame of
    0.016 the velocities are [+v] for A and [-v] for B with [v] between
    0.2862 and 0.2863, and the positions have moved by [v * dt] toward each
    other. *)
Theorem scenario_one_step :
  let acc := 4 / sqrt (5 / 100) in
  let v := acc * (16 / 1000) in
  radius_sum (T:=R) scenario_A scenario_B = 4 / 100 /\
  overlapping (T:=R) scenario_A scenario_B = false /\
  softened_distSq (T:=R) scenario_A scenario_B = 5 / 100 /\
  pair_force (T:=R) scenario_A scenario_B = 20 /\
  gravity_term (T:=R) scenario_A scenario_B = Vec2 acc 0 /\
  gravity_term (T:=R) scenario_B scenario_A = Vec2 (- acc) 0 /\
  17888 / 1000 < acc < 17889 / 1000 /\
  2862 / 10000 < v < 2863 / 10000 /\
  physics_step (T:=R) scenario_dt [scenario_A; scenario_B] =
  [ mkParticle (Vec2 (- (1 / 10) + v * (16 / 1000)) 0) (Vec2 v 0) 1;
    mkParticle (Vec2 (1 / 10 - v * (16 / 1000)) 0) (Vec2 (- v) 0) 1 ].
Proof.
  intros acc v. pose proof scenario_acc_bounds as Hb.
  unfold v, acc. repeat split.
  - apply scenario_radius_sum.
  - apply scenario_no_overlap.
  - apply scenario_softened_AB.
  - unfold pair_force. rewrite scenario_softened_AB. unfold G.
    cbn [scenario_A scenario_B mass smul sdiv slit R_scalar]. field.
  - apply scenario_term_AB.
  - apply scenario_term_BA.
  - apply Hb.
  - apply Hb.
  - lra.
  - lra.
  - apply scenario_step_eq.
Qed.

(** C1 as stated fails: the acceleration of A along x is not 20, and
    neither velocity is within 0.03 of the stated 0.32. *)
Lemma scenario_not_as_stated :
  exists a' b' : Particle R,
    physics_step (T:=R) scenario_dt [scenario_A; scenario_B] = [a'; b'] /\
    vx (gravity_term (T:=R) scenario_A scenario_B) <> 20 /\
    ~ (Rabs (vx (vel a') - 32 / 100) <= 3 / 100) /\
    ~ (Rabs (vx (vel b') - - (32 / 100)) <= 3 / 100).
Proof.
  pose proof scenario_acc_bounds as Hacc.
  eexists _, _. split; [exact scenario_step_eq|].
  rewrite scenario_term_AB. cbn [vx vel].
  repeat split.
  - lra.
  - intros Habs. unfold Rabs in Habs. destruct (Rcase_abs _) in Habs; lra.
  - intros Habs. unfold Rabs in Habs. destruct (Rcase_abs _) in Habs; lra.
Qed.

End ExactScenario.

(** ** Exact arithmetic: a frame of zero duration *)

Section ZeroFrame.
Local Open Scope R_scope.

Lemma add_vel_zero_dt (a : vec2 R) (p : Particle R) :
  add_vel (vscale a 0) p = p.
Proof.
  destruct p as [q [u w] m]. unfold add_vel, vscale, vadd.
  cbn [pos vel mass vx vy sadd smul R_scalar].
  f_equal. apply vec2_eq; cbn [vx vy]; ring.
Qed.

Lemma gravity_pass_zero_dt (ps : list (Particle R)) : gravity_pass 0 ps = ps.
Proof.
  unfold gravity_pass, apply_acceleration.
  apply (fold_left_preserves (fun l => l = ps)); [reflexivity|].
  intros l i ->. unfold velocity_body.
  destruct (accumulate_gravity ps !! i) as [a|]; [|reflexivity].
  apply list_alter_id, add_vel_zero_dt.
Qed.

Lemma integrate_zero_dt (ps : list (Particle R)) : integrate 0 ps = ps.
Proof.
  unfold integrate. induction ps as [|p ps IH]; [reflexivity|].
  cbn [map]. rewrite IH. f_equal.
  destruct p as [[x y] u m]. unfold add_pos, vscale, vadd.
  cbn [pos vel mass vx vy sadd smul R_scalar].
  f_equal. apply vec2_eq; cbn [vx vy]; ring.
Qed.

Lemma overlap_pair_normal :
  contact_normal overlap_a overlap_b = Vec2 1 0.
Proof.
  unfold contact_normal. rewrite overlap_pair_dist.
  unfold vdivs, center_diff, vsub.
  cbn [overlap_a overlap_b pos vx vy ssub sdiv R_scalar].
  apply vec2_eq; cbn [vx vy]; field.
Qed.

Lemma overlap_pair_hit :
  [hit_fst overlap_a overlap_b; hit_snd overlap_a overlap_b] =
  [ mkParticle (Vec2 (- (15 / 1000)) 0) (Vec2 (- (5 / 3)) 0) 1;
    mkParticle (Vec2 (45 / 1000) 0) (Vec2 (1 / 3) (1 / 2)) 2 ].
Proof.
  unfold hit_fst, hit_snd, correction, penetration, v1New, v2New,
    normal_v1, normal_v2.
  rewrite overlap_pair_normal, overlap_pair_dist.
  unfold radius_sum, getRadius, RADIUS_SCALE, add_vel, sub_pos, add_pos,
    smulv, vscale, vadd, vsub, dot.
  cbn [overlap_a overlap_b pos vel mass vx vy sadd ssub smul sdiv slit R_scalar].
  f_equal; [|f_equal]; apply particle_eq; cbn [pos vel mass];
    try (apply vec2_eq; cbn [vx vy]); field.
Qed.

(** C10. With [dt = 0] the gravity pass leaves every velocity as it was
    and the position integration leaves every position as it was, so the
    step is exactly the collision pass; and an overlapping pair that passes
    the [dist < 0.0001f] guard still gets the impulse and the correction:
    for the pair 0.03 apart with radii 0.02 and 0.04 both velocities and
    both positions change although no time has elapsed. *)
Theorem zero_dt_step_is_collision_pass :
  (forall ps : list (Particle R), gravity_pass 0 ps = ps) /\
  (forall ps : list (Particle R), integrate 0 ps = ps) /\
  (forall ps : list (Particle R), physics_step 0 ps = resolve_collisions ps) /\
  overlapping overlap_a overlap_b = true /\
  coincident overlap_a overlap_b = false /\
  exists a' b' : Particle R,
    physics_step 0 [overlap_a; overlap_b] = [a'; b'] /\
    vx (vel a') <> vx (vel overlap_a) /\ vx (vel b') <> vx (vel overlap_b) /\
    vx (pos a') <> vx (pos overlap_a) /\ vx (pos b') <> vx (pos overlap_b).
Proof.
  assert (Hstep : forall ps : list (Particle R),
             physics_step 0 ps = resolve_collisions ps).
  { intros ps. unfold physics_step.
    now rewrite gravity_pass_zero_dt, integrate_zero_dt. }
  split; [exact gravity_pass_zero_dt|].
  split; [exact integrate_zero_dt|].
  split; [exact Hstep|].
  split; [exact overlap_pair_overlapping|].
  split; [exact overlap_pair_not_coincident|].
  eexists _, _. split.
  - rewrite Hstep, resolve_collisions_two.
    rewrite overlap_pair_overlapping, overlap_pair_not_coincident.
    exact overlap_pair_hit.
  - cbn [overlap_a overlap_b pos vel vx]. repeat split; lra.
Qed.

End ZeroFrame.

(** ** Exact arithmetic: two mirrored equal masses *)

Section Mirror.
Local Open Scope R_scope.

Lemma softened_distSq_sym (a b : Particle R) :
  softened_distSq b a = softened_distSq a b.
Proof.
  unfold softened_distSq, dot, vsub.
  cbn [vx vy sadd ssub smul R_scalar]. ring.
Qed.

(** The pulls on a mirrored pair are opposite. *)
Lemma gravity_term_mirrored (a b : Particle R) :
  mass a = mass b ->
  vx (gravity_term b a) = - vx (gravity_term a b) /\
  vy (gravity_term b a) = - vy (gravity_term a b).
Proof.
  intros Hm. rewrite !gravity_term_eq. unfold pull_dir, pair_force.
  rewrite (softened_distSq_sym a b), Hm.
  set (s := softened_distSq a b).
  unfold vscale, vdivs, vsub.
  cbn [vx vy ssub smul sdiv ssqrt R_scalar].
  unfold Rdiv. split; ring.
Qed.

Lemma gravity_pass_mirrored (dt : R) (a b : Particle R) :
  mirrored a b ->
  exists a' b', gravity_pass dt [a; b] = [a'; b'] /\ mirrored a' b'.
Proof.
  intros (Hm & (Hpx & Hpy) & (Hvx & Hvy)).
  destruct (gravity_term_mirrored a b Hm) as [Hgx Hgy].
  eexists _, _. split; [apply gravity_pass_two|].
  unfold mirrored, add_vel, vscale, vadd, vzero.
  cbn [pos vel mass vx vy sadd smul slit R_scalar].
  rewrite Hgx, Hgy, Hvx, Hvy.
  unfold Rdiv. repeat split; try assumption; ring.
Qed.

Lemma hit_mirrored (a b : Particle R) :
  mirrored a b -> mirrored (hit_fst a b) (hit_snd a b).
Proof.
  intros (Hm & (Hpx & Hpy) & (Hvx & Hvy)).
  unfold mirrored, hit_fst, hit_snd, v1New, v2New, normal_v1, normal_v2.
  set (n := contact_normal a b).
  set (c := correction a b).
  unfold add_vel, sub_pos, add_pos, smulv, vadd, vsub, dot.
  cbn [pos vel mass vx vy sadd ssub smul sdiv slit R_scalar].
  rewrite Hm, Hpx, Hpy, Hvx, Hvy.
  unfold Rdiv. repeat split; try reflexivity; ring.
Qed.

Lemma resolve_collisions_mirrored (a b : Particle R) :
  mirrored a b ->
  exists a' b', resolve_collisions [a; b] = [a'; b'] /\ mirrored a' b'.
Proof.
  intros Hab. rewrite resolve_collisions_two.
  destruct (overlapping a b); [|now exists a, b].
  destruct (coincident a b); [now exists a, b|].
  eexists _, _. split; [reflexivity|]. now apply hit_mirrored.
Qed.

Lemma integrate_mirrored (dt : R) (a b : Particle R) :
  mirrored a b ->
  exists a' b', integrate dt [a; b] = [a'; b'] /\ mirrored a' b'.
Proof.
  intros (Hm & (Hpx & Hpy) & (Hvx & Hvy)).
  eexists _, _. split; [reflexivity|].
  unfold mirrored, add_pos, vscale, vadd.
  cbn [pos vel mass vx vy sadd smul R_scalar].
  rewrite Hpx, Hpy, Hvx, Hvy.
  repeat split; try assumption; try reflexivity; ring.
Qed.

Lemma physics_step_mirrored (dt : R) (a b : Particle R) :
  mirrored a b ->
  exists a' b', physics_step dt [a; b] = [a'; b'] /\ mirrored a' b'.
Proof.
  intros Hab. unfold physics_step.
  destruct (gravity_pass_mirrored dt a b Hab) as (a1 & b1 & -> & H1).
  destruct (resolve_collisions_mirrored a1 b1 H1) as (a2 & b2 & -> & H2).
  now apply integrate_mirrored.
Qed.

Lemma run_mirrored (dts : list R) (a b : Particle R) :
  mirrored a b ->
  exists a' b', run dts [a; b] = [a'; b'] /\ mirrored a' b'.
Proof.
  revert a b. induction dts as [|dt dts IH]; intros a b Hab.
  - now exists a, b.
  - unfold run. cbn [fold_left].
    destruct (physics_step_mirrored dt a b Hab) as (a1 & b1 & -> & H1).
    now apply IH.
Qed.

(** C7. Two particles of equal mass, at positions symmetric about the
    origin and at rest, stay mirror images of each other after every frame
    of a run, whatever the frame times: [pos_i = - pos_j] and
    [vel_i = - vel_j]. *)
Theorem mirror_symmetry_preserved (dts : list R) (a b : Particle R) :
  mass a = mass b ->
  vx (pos a) = - vx (pos b) -> vy (pos a) = - vy (pos b) ->
  vx (vel a) = 0 -> vy (vel a) = 0 ->
  vx (vel b) = 0 -> vy (vel b) = 0 ->
  exists a' b' : Particle R,
    run dts [a; b] = [a'; b'] /\
    (vx (pos a') = - vx (pos b') /\ vy (pos a') = - vy (pos b')) /\
    (vx (vel a') = - vx (vel b') /\ vy (vel a') = - vy (vel b')).
Proof.
  intros Hm Hpx Hpy Hax Hay Hbx Hby.
  destruct (run_mirrored dts a b) as (a' & b' & Hrun & _ & Hp & Hv).
  { unfold mirrored. repeat split; try assumption; lra. }
  now exists a', b'.
Qed.

Lemma mirror_symmetry_preserved_witness :
  exists a' b' : Particle R,
    run [16 / 1000; 16 / 1000; 33 / 1000] [scenario_A; scenario_B] = [a'; b'] /\
    (vx (pos a') = - vx (pos b') /\ vy (pos a') = - vy (pos b')) /\
    (vx (vel a') = - vx (vel b') /\ vy (vel a') = - vy (vel b')).
Proof.
  apply mirror_symmetry_preserved;
    cbn [scenario_A scenario_B pos vel mass vzero vx vy slit R_scalar];
    try reflexivity; lra.
Defined.

End Mirror.

(** ** Exact arithmetic: the gravity pass does not depend on the loop order *)

Section LoopOrder.
Local Open Scope R_scope.

Lemma fold_left_permutation {A B : Type} (f : A -> B -> A) (l l' : list B) :
  (forall a x y, f (f a x) y = f (f a y) x) ->
  Permutation l l' ->
  forall a, fold_left f l a = fold_left f l' a.
Proof.
  intros Hf Hp. induction Hp as [|x l l' _ IH|x y l|l l' l'' _ IH1 _ IH2];
    intros a; cbn [fold_left].
  - reflexivity.
  - apply IH.
  - now rewrite Hf.
  - now rewrite IH1.
Qed.

Lemma vadd_swap (a x y : vec2 R) : vadd (vadd a x) y = vadd (vadd a y) x.
Proof.
  unfold vadd. cbn [vx vy sadd R_scalar]. apply vec2_eq; cbn [vx vy]; ring.
Qed.

Lemma gravity_update_swap (ps : list (Particle R)) (i j j' : nat) (a : vec2 R) :
  gravity_update ps i j (gravity_update ps i j' a) =
  gravity_update ps i j' (gravity_update ps i j a).
Proof.
  unfold gravity_update.
  destruct (i =? j)%nat, (i =? j')%nat; try reflexivity.
  destruct (ps !! i) as [pi|]; [|reflexivity].
  destruct (ps !! j) as [pj|], (ps !! j') as [pj'|]; try reflexivity.
  apply vadd_swap.
Qed.

Lemma gravity_body_swap (ps : list (Particle R)) (i j i' j' : nat)
    (acc : list (vec2 R)) :
  gravity_body ps i j (gravity_body ps i' j' acc) =
  gravity_body ps i' j' (gravity_body ps i j acc).
Proof.
  rewrite !gravity_body_alter. destruct (decide (i = i')) as [->|Hne].
  - rewrite !list_alter_alter_eq. apply list_alter_ext; [|reflexivity].
    intros a _. apply gravity_update_swap.
  - now apply list_alter_alter_ne.
Qed.

Lemma add_vel_swap (x y : vec2 R) (p : Particle R) :
  add_vel x (add_vel y p) = add_vel y (add_vel x p).
Proof. unfold add_vel. cbn [pos vel mass]. f_equal. apply vadd_swap. Qed.

Lemma velocity_body_swap (dt : R) (acc : list (vec2 R)) (i i' : nat)
    (ps : list (Particle R)) :
  velocity_body dt acc i (velocity_body dt acc i' ps) =
  velocity_body dt acc i' (velocity_body dt acc i ps).
Proof.
  rewrite !velocity_body_alter. destruct (decide (i = i')) as [->|Hne].
  - reflexivity.
  - now apply list_alter_alter_ne.
Qed.

Lemma gravity_pass_in_permutation (dt : R) (ps : list (Particle R))
    (pairs pairs' : list (nat * nat)) (idx idx' : list nat) :
  Permutation pairs pairs' -> Permutation idx idx' ->
  gravity_pass_in pairs idx dt ps = gravity_pass_in pairs' idx' dt ps.
Proof.
  intros Hp Hi. unfold gravity_pass_in.
  rewrite (fold_left_permutation _ pairs pairs'); [|intros a x y|exact Hp].
  - apply fold_left_permutation; [|exact Hi].
    intros l i i'. symmetry. apply velocity_body_swap.
  - symmetry. apply gravity_body_swap.
Qed.

(** C6. The gravity pass updates particle [i] to [vel_i + acc_i * dt]
    where [acc_i] is computed from the particle sequence as it was before
    the pass, position and mass being kept.  Consequently the order of the
    iterations does not matter: at every scalar instance (binary32
    included) the rows of the double loop can be visited and interleaved in
    any order and the velocity loop run in any order; and in exact
    arithmetic the pairs [(i, j)] can be visited in any order at all. *)
Theorem gravity_pass_snapshot :
  (forall (T : Type) (S : Scalar T) (dt : T) (ps : list (Particle T)),
     (forall (i : nat) (p : Particle T),
        ps !! i = Some p ->
        gravity_pass dt ps !! i =
        Some (mkParticle (pos p)
                (vadd (vel p) (vscale (net_acceleration ps i p) dt)) (mass p))) /\
     (forall (pairs : list (nat * nat)) (idx : list nat),
        rows_in_order (length ps) pairs ->
        Permutation idx (seq 0 (length ps)) ->
        gravity_pass_in pairs idx dt ps = gravity_pass dt ps)) /\
  (forall (dt : R) (ps : list (Particle R))
          (pairs : list (nat * nat)) (idx : list nat),
     Permutation pairs (loop_order (length ps)) ->
     Permutation idx (seq 0 (length ps)) ->
     gravity_pass_in pairs idx dt ps = gravity_pass dt ps).
Proof.
  split.
  - intros T S dt ps. split.
    + intros i p Hi. now apply gravity_pass_lookup.
    + intros pairs idx Hrows Hi. now apply gravity_pass_in_rows.
  - intros dt ps pairs idx Hp Hi. rewrite <- gravity_pass_in_loop_order.
    now apply gravity_pass_in_permutation.
Qed.

(** Three particles in binary32 with the two loops exchanged and the
    velocity loop reversed; two particles in exact arithmetic with the
    double loop reversed. *)
Lemma gravity_pass_snapshot_witness :
  gravity_pass_in
    [(0, 0); (1, 0); (2, 0); (0, 1); (1, 1); (2, 1); (0, 2); (1, 2); (2, 2)]%nat
    [2; 1; 0]%nat scenario_dt [twin; scenario_A; scenario_B] =
  gravity_pass scenario_dt [twin; scenario_A; scenario_B] /\
  gravity_pass_in [(1, 1); (1, 0); (0, 1); (0, 0)]%nat [1; 0]%nat
    (16 / 1000) [overlap_a; overlap_b] =
  gravity_pass (16 / 1000) [overlap_a; overlap_b].
Proof.
  destruct gravity_pass_snapshot as [Hany Hexact]. split.
  - apply (Hany float32 float32_scalar).
    + intros k Hk. destruct k as [|[|[|k]]]; [reflexivity..|cbn in Hk; lia].
    + exact (Permutation_rev [2; 1; 0]%nat).
  - apply Hexact.
    + change (loop_order (length [overlap_a; overlap_b]))
        with (rev [(1, 1); (1, 0); (0, 1); (0, 0)]%nat).
      apply Permutation_rev.
    + change (seq 0 (length [overlap_a; overlap_b])) with (rev [1; 0]%nat).
      apply Permutation_rev.
Defined.

End LoopOrder.

(** ** Exact arithmetic: the gravity pass conserves momentum *)

Section GravityMomentum.
Local Open Scope R_scope.

Lemma Rsum_nil {B : Type} (f : B -> R) : Rsum f [] = 0.
Proof. reflexivity. Qed.

Lemma Rsum_cons {B : Type} (f : B -> R) (x : B) (l : list B) :
  Rsum f (x :: l) = f x + Rsum f l.
Proof. reflexivity. Qed.

Lemma Rsum_ext {B : Type} (f g : B -> R) (l : list B) :
  (forall x, f x = g x) -> Rsum f l = Rsum g l.
Proof.
  intros Hfg. induction l as [|x l IH]; [reflexivity|].
  now rewrite !Rsum_cons, Hfg, IH.
Qed.

Lemma Rsum_plus {B : Type} (f g : B -> R) (l : list B) :
  Rsum (fun x => f x + g x) l = Rsum f l + Rsum g l.
Proof.
  induction l as [|x l IH]; [rewrite !Rsum_nil; ring|].
  rewrite !Rsum_cons, IH. ring.
Qed.

Lemma Rsum_scal {B : Type} (c : R) (f : B -> R) (l : list B) :
  Rsum (fun x => c * f x) l = c * Rsum f l.
Proof.
  induction l as [|x l IH]; [rewrite !Rsum_nil; ring|].
  rewrite !Rsum_cons, IH. ring.
Qed.

Lemma Rsum_zero {B : Type} (l : list B) : Rsum (fun _ => 0) l = 0.
Proof.
  induction l as [|x l IH]; [reflexivity|].
  rewrite Rsum_cons, IH. ring.
Qed.

Lemma Rsum_map {B C : Type} (h : B -> C) (f : C -> R) (l : list B) :
  Rsum f (map h l) = Rsum (fun x => f (h x)) l.
Proof.
  induction l as [|x l IH]; [reflexivity|].
  cbn [map]. now rewrite !Rsum_cons, IH.
Qed.

(** A double sum of pairwise opposite terms vanishes. *)
Lemma Rsum_antisymmetric {B : Type} (g : B -> B -> R) (l : list B) :
  (forall p q, g p q + g q p = 0) ->
  Rsum (fun p => Rsum (g p) l) l = 0.
Proof.
  intros Hg. induction l as [|a l IH]; [reflexivity|].
  rewrite Rsum_cons, Rsum_cons.
  rewrite (Rsum_ext (fun p => Rsum (g p) (a :: l))
             (fun p => g p a + Rsum (g p) l)) by (intros p; apply Rsum_cons).
  rewrite Rsum_plus, IH.
  assert (Haa : g a a = 0) by (pose proof (Hg a a); lra).
  assert (Hcross : Rsum (g a) l + Rsum (fun p => g p a) l = 0).
  { rewrite <- Rsum_plus. rewrite (Rsum_ext _ (fun _ => 0)) by (intros x; apply Hg).
    apply Rsum_zero. }
  rewrite Haa. lra.
Qed.

Lemma vx_fold_vadd {B : Type} (t : B -> vec2 R) (l : list B) (a : vec2 R) :
  vx (fold_left (fun s x => vadd s (t x)) l a) = vx a + Rsum (fun x => vx (t x)) l.
Proof.
  revert a. induction l as [|x l IH]; intros a; cbn [fold_left].
  - rewrite Rsum_nil. ring.
  - rewrite Rsum_cons, IH.
    unfold vadd. cbn [vx sadd R_scalar]. ring.
Qed.

Lemma vy_fold_vadd {B : Type} (t : B -> vec2 R) (l : list B) (a : vec2 R) :
  vy (fold_left (fun s x => vadd s (t x)) l a) = vy a + Rsum (fun x => vy (t x)) l.
Proof.
  revert a. induction l as [|x l IH]; intros a; cbn [fold_left].
  - rewrite Rsum_nil. ring.
  - rewrite Rsum_cons, IH.
    unfold vadd. cbn [vy sadd R_scalar]. ring.
Qed.

(** A loop over the indices of a list is a loop over its elements. *)
Lemma fold_seq_lookup {A B : Type} (g : A -> B -> A) (l : list B) (a : A) :
  fold_left (fun a j => match l !! j with Some q => g a q | None => a end)
    (seq 0 (length l)) a =
  fold_left g l a.
Proof.
  revert a. induction l as [|x l IH] using rev_ind; intros a; [reflexivity|].
  rewrite length_app, seq_app, !fold_left_app. cbn [length seq fold_left].
  rewrite Nat.add_0_l, <- IH.
  rewrite (list_lookup_middle l [] x (length l) eq_refl). f_equal.
  apply fold_left_ext_in. intros a' j Hj. apply in_seq in Hj.
  now rewrite lookup_app_l by lia.
Qed.

(** A particle does not pull on itself. *)
Lemma gravity_term_self (p : Particle R) : gravity_term p p = Vec2 0 0.
Proof.
  unfold gravity_term, vscale, vdivs, vsub.
  cbn [vx vy ssub smul sdiv R_scalar].
  apply vec2_eq; cbn [vx vy]; unfold Rdiv; ring.
Qed.

Lemma vadd_zero_r (a : vec2 R) : vadd a (Vec2 0 0) = a.
Proof.
  unfold vadd. cbn [vx vy sadd R_scalar]. apply vec2_eq; cbn [vx vy]; ring.
Qed.

(** In exact arithmetic skipping [j = i] or adding its (null) term is the
    same, so the acceleration is the sum of the terms of all particles. *)
Lemma net_acceleration_sum (ps : list (Particle R)) (i : nat) (p : Particle R) :
  ps !! i = Some p ->
  net_acceleration ps i p =
  fold_left (fun a q => vadd a (gravity_term p q)) ps vzero.
Proof.
  intros Hi. unfold net_acceleration.
  rewrite <- (fold_seq_lookup (fun a q => vadd a (gravity_term p q)) ps vzero).
  apply fold_left_ext_in. intros a j _.
  destruct (Nat.eqb_spec i j) as [->|Hne]; [|reflexivity].
  now rewrite Hi, gravity_term_self, vadd_zero_r.
Qed.

Lemma gravity_pass_map (dt : R) (ps : list (Particle R)) :
  gravity_pass dt ps =
  map (fun p =>
         add_vel (vscale (fold_left (fun a q => vadd a (gravity_term p q)) ps vzero) dt) p)
      ps.
Proof.
  apply list_eq. intros k.
  match goal with |- _ = map ?f ps !! k => change (map f ps) with (f <$> ps) end.
  rewrite list_lookup_fmap.
  destruct (ps !! k) as [p|] eqn:Hk; cbn [fmap option_fmap option_map].
  - rewrite (gravity_pass_lookup dt ps k p Hk).
    now rewrite (net_acceleration_sum ps k p Hk).
  - apply lookup_ge_None. rewrite gravity_pass_length.
    now apply lookup_ge_None.
Qed.

(** The momentum that [p] gains from [q] is the one [q] loses to [p]. *)
Lemma momentum_exchange (p q : Particle R) :
  mass p * vx (gravity_term p q) + mass q * vx (gravity_term q p) = 0 /\
  mass p * vy (gravity_term p q) + mass q * vy (gravity_term q p) = 0.
Proof.
  rewrite !gravity_term_eq. unfold pull_dir, pair_force.
  rewrite (softened_distSq_sym p q).
  set (s := softened_distSq p q).
  unfold vscale, vdivs, vsub.
  cbn [vx vy ssub smul sdiv ssqrt R_scalar].
  destruct (Req_dec (mass p) 0) as [Hp|Hp];
    destruct (Req_dec (mass q) 0) as [Hq|Hq];
    try rewrite Hp; try rewrite Hq; unfold Rdiv.
  - split; ring.
  - split; ring.
  - split; ring.
  - assert (Hip : mass p * / mass p = 1) by now apply Rinv_r.
    assert (Hiq : mass q * / mass q = 1) by now apply Rinv_r.
    set (ip := / mass p) in *. set (iq := / mass q) in *.
    set (r := / sqrt s). set (w := / s).
    split.
    + replace (mass p * ((vx (pos q) - vx (pos p)) * r * (G * mass p * mass q * w * ip))
               + mass q * ((vx (pos p) - vx (pos q)) * r * (G * mass q * mass p * w * iq)))
        with ((vx (pos q) - vx (pos p)) * r * (G * mass p * mass q * w)
              * (mass p * ip - mass q * iq)) by ring.
      rewrite Hip, Hiq. ring.
    + replace (mass p * ((vy (pos q) - vy (pos p)) * r * (G * mass p * mass q * w * ip))
               + mass q * ((vy (pos p) - vy (pos q)) * r * (G * mass q * mass p * w * iq)))
        with ((vy (pos q) - vy (pos p)) * r * (G * mass p * mass q * w)
              * (mass p * ip - mass q * iq)) by ring.
      rewrite Hip, Hiq. ring.
Qed.

Lemma momentum_after_x (dt : R) (ps : list (Particle R)) (p : Particle R) :
  vx (momentum (add_vel
        (vscale (fold_left (fun a q => vadd a (gravity_term p q)) ps vzero) dt) p)) =
  vx (momentum p) + dt * Rsum (fun q => mass p * vx (gravity_term p q)) ps.
Proof.
  unfold momentum, add_vel, smulv, vscale.
  cbn [vel mass vx vadd sadd smul R_scalar].
  rewrite vx_fold_vadd, Rsum_scal. unfold vzero.
  cbn [vx slit R_scalar]. field.
Qed.

Lemma momentum_after_y (dt : R) (ps : list (Particle R)) (p : Particle R) :
  vy (momentum (add_vel
        (vscale (fold_left (fun a q => vadd a (gravity_term p q)) ps vzero) dt) p)) =
  vy (momentum p) + dt * Rsum (fun q => mass p * vy (gravity_term p q)) ps.
Proof.
  unfold momentum, add_vel, smulv, vscale.
  cbn [vel mass vy vadd sadd smul R_scalar].
  rewrite vy_fold_vadd, Rsum_scal. unfold vzero.
  cbn [vy slit R_scalar]. field.
Qed.

(** C9. For a particle sequence of any size and any [dt], the gravity pass
    (acceleration accumulation, then velocity update) leaves the total
    momentum, the sum of [mass_i * vel_i], unchanged in exact arithmetic:
    the contributions of the ordered pairs [(i, j)] and [(j, i)] cancel. *)
Theorem gravity_pass_conserves_momentum (dt : R) (ps : list (Particle R)) :
  total_momentum (gravity_pass dt ps) = total_momentum ps.
Proof.
  rewrite gravity_pass_map. unfold total_momentum.
  apply vec2_eq.
  - rewrite !vx_fold_vadd, Rsum_map. f_equal.
    rewrite (Rsum_ext _ _ _ (momentum_after_x dt ps)).
    rewrite Rsum_plus, Rsum_scal.
    rewrite (Rsum_antisymmetric (fun p q => mass p * vx (gravity_term p q))).
    + ring.
    + intros p q. apply momentum_exchange.
  - rewrite !vy_fold_vadd, Rsum_map. f_equal.
    rewrite (Rsum_ext _ _ _ (momentum_after_y dt ps)).
    rewrite Rsum_plus, Rsum_scal.
    rewrite (Rsum_antisymmetric (fun p q => mass p * vy (gravity_term p q))).
    + ring.
    + intros p q. apply momentum_exchange.
Qed.

End GravityMomentum.

(** ** Binary32: coincident particles *)

Section Binary32.

Lemma f32_sub_diag (x : float32) :
  is_finite x = true -> ssub x x = S754_zero false.
Proof.
  destruct x as [s|s| |s m e]; try discriminate; intros _.
  - now destruct s.
  - cbn [ssub float32_scalar]. unfold SFsub.
    now rewrite Z.sub_diag.
Qed.

Lemma f32_zero_mul (z c : float32) :
  is_zero z = true -> is_finite c = true -> is_zero (smul z c) = true.
Proof. destruct z, c; try discriminate; reflexivity. Qed.

Lemma f32_zero_add (x y : float32) :
  is_zero x = true -> is_zero y = true -> is_zero (sadd x y) = true.
Proof.
  destruct x as [s| | |], y as [s'| | |]; try discriminate.
  now destruct s, s'.
Qed.

(** Adding a zero to a finite value gives that value back, or a zero when
    the value is itself a zero. *)
Lemma f32_add_zero (v z : float32) :
  is_finite v = true -> is_zero z = true ->
  sadd v z = v \/ (is_zero v = true /\ is_zero (sadd v z) = true).
Proof.
  destruct v as [s| | |s m e], z as [s'| | |]; try discriminate; intros _ _.
  - right. now destruct s, s'.
  - now left.
Qed.

Lemma f32_finite_add_zero (p z : float32) :
  is_finite p = true -> is_zero z = true -> is_finite (sadd p z) = true.
Proof.
  destruct p as [s| | |s m e], z as [s'| | |]; try discriminate; intros _ _.
  - now destruct s, s'.
  - reflexivity.
Qed.

Lemma is_zero_finite (z : float32) : is_zero z = true -> is_finite z = true.
Proof. now destruct z. Qed.

(** The concrete scenario as binary32 computes it: the speed gained is
    9603838 * 2^-25, about 0.28622, and the shift 12807127 * 2^-27 - 0.1,
    about 0.00458. *)
Lemma scenario_one_step_float32 :
  physics_step scenario_dt [scenario_A; scenario_B] =
  [ mkParticle (Vec2 (S754_finite true 12807127 (-27)) (S754_zero false))
               (Vec2 (S754_finite false 9603838 (-25)) (S754_zero false))
               (S754_finite false 8388608 (-23));
    mkParticle (Vec2 (S754_finite false 12807127 (-27)) (S754_zero false))
               (Vec2 (S754_finite true 9603838 (-25)) (S754_zero false))
               (S754_finite false 8388608 (-23)) ].
Proof. vm_compute. reflexivity. Qed.

Lemma coincident_softened (a b : Particle float32) :
  pos a = pos b -> finite_vec (pos a) = true ->
  softened_distSq a b = SOFTENING.
Proof.
  intros Hp Hf. apply andb_prop in Hf as [Hx Hy].
  unfold softened_distSq, vsub. rewrite <- Hp.
  rewrite (f32_sub_diag _ Hx), (f32_sub_diag _ Hy). reflexivity.
Qed.

Lemma coincident_pull (a b : Particle float32) :
  pos a = pos b -> finite_vec (pos a) = true ->
  pull_dir a b = Vec2 (S754_zero false) (S754_zero false).
Proof.
  intros Hp Hf. unfold pull_dir.
  rewrite (coincident_softened a b Hp Hf).
  apply andb_prop in Hf as [Hx Hy].
  unfold vsub. rewrite <- Hp.
  rewrite (f32_sub_diag _ Hx), (f32_sub_diag _ Hy). reflexivity.
Qed.

(** The velocity change of a particle whose partner sits at the same
    point is a zero vector, provided the force term is finite. *)
Lemma coincident_kick (a b : Particle float32) (dt : float32) :
  pos a = pos b -> finite_vec (pos a) = true -> is_finite dt = true ->
  is_finite (sdiv (pair_force a b) (mass a)) = true ->
  zero_vec (vscale (vadd vzero (gravity_term a b)) dt) = true.
Proof.
  intros Hp Hf Hdt Hc. rewrite gravity_term_eq, (coincident_pull a b Hp Hf).
  unfold zero_vec, vscale, vadd, vzero. cbn [vx vy].
  set (c := sdiv (pair_force a b) (mass a)) in *.
  assert (Hz : is_zero (sadd (slit 0 1) (smul (S754_zero false) c)) = true).
  { apply f32_zero_add; [reflexivity|]. now apply f32_zero_mul. }
  rewrite (f32_zero_mul _ dt Hz Hdt). reflexivity.
Qed.

(** The guard [dist < 0.0001f] holds for two particles at the same point. *)
Lemma coincident_guard (a b : Particle float32) :
  pos a = pos b -> finite_vec (pos a) = true -> coincident a b = true.
Proof.
  intros Hp Hf. apply andb_prop in Hf as [Hx Hy].
  unfold coincident, center_dist, center_distSq, center_diff, vsub.
  rewrite <- Hp. rewrite (f32_sub_diag _ Hx), (f32_sub_diag _ Hy). reflexivity.
Qed.

Lemma coincident_no_collision (a b : Particle float32) :
  pos a = pos b -> finite_vec (pos a) = true ->
  resolve_collisions [a; b] = [a; b].
Proof.
  intros Hp Hf. rewrite resolve_collisions_two, (coincident_guard a b Hp Hf).
  now destruct (overlapping a b).
Qed.

Lemma kicked_component_finite (p v z dt : float32) :
  is_finite p = true -> is_finite v = true -> is_zero z = true ->
  is_finite dt = true -> is_finite (sadd p (smul v dt)) = true ->
  is_finite (sadd v z) = true /\
  is_finite (sadd p (smul (sadd v z) dt)) = true.
Proof.
  intros Hp Hv Hz Hdt Hmove.
  destruct (f32_add_zero v z Hv Hz) as [->|[_ Hvz]]; [now split|].
  split; [now apply is_zero_finite|].
  apply f32_finite_add_zero; [exact Hp|]. now apply f32_zero_mul.
Qed.

Lemma kicked_particle_finite (a : Particle float32) (k : vec2 float32)
    (dt : float32) :
  finite_particle a = true -> zero_vec k = true -> is_finite dt = true ->
  finite_vec (vadd (pos a) (vscale (vel a) dt)) = true ->
  finite_particle (add_pos (vscale (vel (add_vel k a)) dt) (add_vel k a)) = true.
Proof.
  intros Ha Hk Hdt Hmove.
  apply andb_prop in Ha as [Hpos Hvel].
  apply andb_prop in Hpos as [Hpx Hpy]. apply andb_prop in Hvel as [Hvx Hvy].
  apply andb_prop in Hk as [Hkx Hky]. apply andb_prop in Hmove as [Hmx Hmy].
  unfold vadd, vscale in Hmx, Hmy. cbn [vx vy] in Hmx, Hmy.
  destruct (kicked_component_finite _ _ _ _ Hpx Hvx Hkx Hdt Hmx) as [Hx1 Hx2].
  destruct (kicked_component_finite _ _ _ _ Hpy Hvy Hky Hdt Hmy) as [Hy1 Hy2].
  unfold finite_particle, finite_vec, add_pos, add_vel, vadd, vscale.
  cbn [pos vel mass vx vy].
  now rewrite Hx1, Hx2, Hy1, Hy2.
Qed.

(** Two particles at the same finite point come out of a step finite as
    soon as the two force terms and the two position updates are. *)
Lemma coincident_pair_finite_if (a b : Particle float32) (dt : float32) :
  pos a = pos b ->
  finite_particle a = true -> finite_particle b = true ->
  is_finite dt = true ->
  is_finite (sdiv (pair_force a b) (mass a)) = true ->
  is_finite (sdiv (pair_force b a) (mass b)) = true ->
  finite_vec (vadd (pos a) (vscale (vel a) dt)) = true ->
  finite_vec (vadd (pos b) (vscale (vel b) dt)) = true ->
  softened_distSq a b = SOFTENING /\
  resolve_collisions (gravity_pass dt [a; b]) = gravity_pass dt [a; b] /\
  exists a' b' : Particle float32,
    physics_step dt [a; b] = [a'; b'] /\
    finite_particle a' = true /\ finite_particle b' = true.
Proof.
  intros Hp Ha Hb Hdt Hca Hcb Hma Hmb.
  assert (Hfa : finite_vec (pos a) = true)
    by (apply andb_prop in Ha as [Hfa _]; exact Hfa).
  assert (Hfb : finite_vec (pos b) = true) by now rewrite <- Hp.
  pose proof (coincident_kick a b dt Hp Hfa Hdt Hca) as Hka.
  pose proof (coincident_kick b a dt (eq_sym Hp) Hfb Hdt Hcb) as Hkb.
  split; [now apply coincident_softened|].
  rewrite physics_step_two, gravity_pass_two.
  set (ka := vscale (vadd vzero (gravity_term a b)) dt) in *.
  set (kb := vscale (vadd vzero (gravity_term b a)) dt) in *.
  assert (Hskip : resolve_collisions [add_vel ka a; add_vel kb b] =
                  [add_vel ka a; add_vel kb b])
    by now apply coincident_no_collision.
  split; [exact Hskip|].
  rewrite Hskip. unfold integrate. cbn [map].
  eexists _, _. split; [reflexivity|].
  split; now apply kicked_particle_finite.
Qed.


End Binary32.

(** ** Binary32: no overflow in the force terms

    A little of the theory of rounding: how many binary digits a mantissa
    has after the shifts and the round-to-nearest of [binary_round_aux],
    hence a bound on the magnitude of a product and of a quotient. *)

Section Magnitude.
Local Open Scope Z_scope.

Lemma digits2_pos_size (p : positive) : digits2_pos p = Pos.size p.
Proof. induction p; simpl; congruence. Qed.

Lemma Zdigits2_log2 (m : Z) : 0 < m -> Zdigits2 m = Z.log2 m + 1.
Proof.
  destruct m as [|p|p]; try lia. intros _. cbn [Zdigits2].
  rewrite digits2_pos_size. destruct p; cbn [Pos.size Z.log2]; lia.
Qed.

Lemma Zdigits2_nonneg (m : Z) : 0 <= Zdigits2 m.
Proof. destruct m; cbn; lia. Qed.

Lemma Zdigits2_zero_iff (m : Z) : 0 <= m -> (Zdigits2 m = 0 <-> m = 0).
Proof. destruct m; cbn; lia. Qed.

Lemma Zdigits2_lt_pow2 (m k : Z) : 0 <= m -> 0 <= k -> m < 2 ^ k -> Zdigits2 m <= k.
Proof.
  intros Hm Hk Hlt. destruct (Z.eq_dec m 0) as [->|Hne]; [cbn; lia|].
  rewrite Zdigits2_log2 by lia. apply Z.log2_lt_pow2 in Hlt; lia.
Qed.

Lemma Zdigits2_ge_pow2 (m : Z) : 0 < m -> 2 ^ (Zdigits2 m - 1) <= m.
Proof.
  intros Hm. rewrite Zdigits2_log2 by lia.
  replace (Z.log2 m + 1 - 1) with (Z.log2 m) by lia.
  apply Z.log2_spec. lia.
Qed.

Lemma Zdigits2_lt (m : Z) : 0 <= m -> m < 2 ^ Zdigits2 m.
Proof.
  intros Hm. destruct (Z.eq_dec m 0) as [->|Hne]; [cbn; lia|].
  rewrite Zdigits2_log2 by lia. apply Z.log2_spec. lia.
Qed.

Lemma shr_1_digits (mrs : shr_record) :
  0 <= shr_m mrs ->
  0 <= shr_m (shr_1 mrs) /\
  Zdigits2 (shr_m (shr_1 mrs)) = Z.max 0 (Zdigits2 (shr_m mrs) - 1).
Proof.
  destruct mrs as [m r s]. cbn [shr_m]. intros Hm.
  destruct m as [|p|p]; [cbn; lia| |lia].
  destruct p; cbn [shr_1 shr_m Zdigits2 digits2_pos]; lia.
Qed.

Lemma iter_shr_1_digits (p : positive) (mrs : shr_record) :
  0 <= shr_m mrs ->
  0 <= shr_m (SpecFloat.iter_pos shr_1 p mrs) /\
  Zdigits2 (shr_m (SpecFloat.iter_pos shr_1 p mrs)) =
  Z.max 0 (Zdigits2 (shr_m mrs) - Zpos p).
Proof.
  revert mrs. induction p as [p IH|p IH|]; intros mrs Hm; cbn [SpecFloat.iter_pos].
  - destruct (shr_1_digits mrs Hm) as [H1 E1].
    destruct (IH _ H1) as [H2 E2]. destruct (IH _ H2) as [H3 E3].
    split; [exact H3|]. rewrite E3, E2, E1. lia.
  - destruct (IH _ Hm) as [H2 E2]. destruct (IH _ H2) as [H3 E3].
    split; [exact H3|]. rewrite E3, E2. lia.
  - apply shr_1_digits, Hm.
Qed.

Lemma shr_fexp_digits (m e : Z) (l : location) :
  0 <= m ->
  let '(mrs, e') := shr_fexp 24 128 m e l in
  0 <= shr_m mrs /\
  e' = Z.max e (f32_fexp (Zdigits2 m + e)) /\
  Zdigits2 (shr_m mrs) = Z.max 0 (Zdigits2 m + e - e').
Proof.
  intros Hm. unfold shr_fexp, shr.
  assert (Hrec : shr_m (shr_record_of_loc m l) = m)
    by (destruct l as [|[]]; reflexivity).
  change (fexp 24 128 (Zdigits2 m + e)) with (f32_fexp (Zdigits2 m + e)).
  pose proof (Zdigits2_nonneg m) as Hd.
  destruct (f32_fexp (Zdigits2 m + e) - e) as [|p|p] eqn:Hn.
  - rewrite Hrec. repeat split; lia.
  - destruct (iter_shr_1_digits p (shr_record_of_loc m l)) as [H1 E1];
      [rewrite Hrec; exact Hm|].
    rewrite Hrec in E1. repeat split; [exact H1|lia|rewrite E1; lia].
  - rewrite Hrec. repeat split; lia.
Qed.

Lemma round_nearest_even_digits (m : Z) (l : location) :
  0 <= m ->
  0 <= round_nearest_even m l /\
  Zdigits2 (round_nearest_even m l) <= Zdigits2 m + 1.
Proof.
  intros Hm.
  assert (Hs : Zdigits2 (m + 1) <= Zdigits2 m + 1).
  { destruct (Z.eq_dec m 0) as [->|Hne]; [cbv; congruence|].
    rewrite !Zdigits2_log2 by lia.
    pose proof (Z.log2_succ_le m). unfold Z.succ in *. lia. }
  unfold round_nearest_even.
  destruct l as [|[]]; try destruct (Z.even m); split; lia.
Qed.

Lemma round_aux_mag (s : bool) (m e : Z) (l : location) (B : Z) :
  0 <= m -> Zdigits2 m + e <= B -> -149 <= B <= 127 -> e <= 104 ->
  mag_le (B + 1) (binary_round_aux 24 128 s m e l).
Proof.
  intros Hm HB Hrange He. unfold binary_round_aux.
  pose proof (shr_fexp_digits m e l Hm) as H1.
  destruct (shr_fexp 24 128 m e l) as [mrs' e'].
  destruct H1 as (Hm1 & He' & Hd1).
  destruct (round_nearest_even_digits (shr_m mrs') (loc_of_shr_record mrs') Hm1)
    as [Hm2 Hd2].
  set (m2 := round_nearest_even (shr_m mrs') (loc_of_shr_record mrs')) in *.
  pose proof (shr_fexp_digits m2 e' loc_Exact Hm2) as H2.
  destruct (shr_fexp 24 128 m2 e' loc_Exact) as [mrs'' e''].
  destruct H2 as (Hm3 & He'' & Hd3).
  pose proof (Zdigits2_nonneg m) as Hdm.
  unfold f32_fexp in *.
  destruct (shr_m mrs'') as [|p|p] eqn:Hp; [exact I| |lia].
  cbn [Zdigits2] in Hd3.
  change (128 - 24) with 104.
  destruct (Z.leb_spec e'' 104) as [Hle|Hgt]; cbn [mag_le]; lia.
Qed.

Lemma mul_mag (Bx By : Z) (x y : spec_float) :
  mag_le Bx x -> mag_le By y -> -149 <= Bx + By <= 106 ->
  mag_le (Bx + By + 1) (SFmul 24 128 x y).
Proof.
  intros Hx Hy HB.
  destruct x as [sx|sx| |sx mx ex]; try contradiction;
    destruct y as [sy|sy| |sy my ey]; try contradiction; try exact I.
  cbn [mag_le] in Hx, Hy. cbn [SFmul].
  apply round_aux_mag; try lia.
  assert (Hd : Zdigits2 (Zpos (mx * my)) <=
               Zpos (digits2_pos mx) + Zpos (digits2_pos my)).
  { change (Zpos (digits2_pos mx)) with (Zdigits2 (Zpos mx)).
    change (Zpos (digits2_pos my)) with (Zdigits2 (Zpos my)).
    rewrite !Zdigits2_log2 by lia. rewrite Pos2Z.inj_mul.
    pose proof (Z.log2_mul_above (Zpos mx) (Zpos my)). lia. }
  lia.
Qed.

Lemma div_core_mag (mx my : positive) (ex ey : Z) :
  let '(q, e', l) := SFdiv_core_binary 24 128 (Zpos mx) ex (Zpos my) ey in
  0 <= q /\
  e' <= f32_fexp (Zpos (digits2_pos mx) + ex - (Zpos (digits2_pos my) + ey)) /\
  Zdigits2 q + e' <=
  Z.max (Zpos (digits2_pos mx) + ex - (Zpos (digits2_pos my) + ey) + 1) e'.
Proof.
  unfold SFdiv_core_binary. cbn [Zdigits2].
  change (fexp 24 128) with f32_fexp.
  set (dx := Zpos (digits2_pos mx)). set (dy := Zpos (digits2_pos my)).
  set (e' := Z.min (f32_fexp (dx + ex - (dy + ey))) (ex - ey)).
  set (s := ex - ey - e').
  assert (Hs : 0 <= s) by (unfold s, e'; lia).
  set (m' := match s with
             | 0 => Zpos mx
             | Zpos _ => Z.shiftl (Zpos mx) s
             | Zneg _ => 0
             end).
  assert (Hm' : m' = Zpos mx * 2 ^ s).
  { unfold m'. destruct s as [|p|p] eqn:Es; [cbn; lia| |lia].
    now rewrite Z.shiftl_mul_pow2 by lia. }
  pose proof (Z_div_mod m' (Zpos my) eq_refl) as Hdiv.
  destruct (Z.div_eucl m' (Zpos my)) as [q r]. destruct Hdiv as [Heq Hr].
  assert (Hm'pos : 0 < m') by (rewrite Hm'; apply Z.mul_pos_pos; [lia|apply Z.pow_pos_nonneg; lia]).
  assert (Hq : 0 <= q) by nia.
  split; [exact Hq|]. split; [unfold e'; lia|].
  destruct (Z.eq_dec q 0) as [->|Hq0]; [cbn; lia|].
  assert (Hqd : 2 ^ (Zdigits2 q - 1) <= q) by (apply Zdigits2_ge_pow2; lia).
  assert (Hyd : 2 ^ (dy - 1) <= Zpos my)
    by (apply (Zdigits2_ge_pow2 (Zpos my)); lia).
  assert (Hxd : Zpos mx < 2 ^ dx) by (apply (Zdigits2_lt (Zpos mx)); lia).
  assert (Hdq : 1 <= Zdigits2 q) by (rewrite Zdigits2_log2 by lia; pose proof (Z.log2_nonneg q); lia).
  assert (Hdy : 1 <= dy) by (unfold dy; lia).
  assert (Hdx : 1 <= dx) by (unfold dx; lia).
  assert (Hlt : 2 ^ (Zdigits2 q - 1 + (dy - 1)) < 2 ^ (dx + s)).
  { rewrite !Z.pow_add_r by lia.
    assert (H2s : 0 < 2 ^ s) by (apply Z.pow_pos_nonneg; lia).
    assert (Hprod : 2 ^ (Zdigits2 q - 1) * 2 ^ (dy - 1) <= q * Zpos my).
    { apply Z.mul_le_mono_nonneg; try lia; apply Z.pow_nonneg; lia. }
    nia. }
  apply Z.pow_lt_mono_r_iff in Hlt; lia.
Qed.

Lemma div_mag (Bx Ly : Z) (x : spec_float) (sy : bool) (my : positive) (ey : Z) :
  mag_le Bx x -> Ly <= Zpos (digits2_pos my) + ey ->
  -150 <= Bx - Ly <= 126 ->
  mag_le (Bx - Ly + 2) (SFdiv 24 128 x (S754_finite sy my ey)).
Proof.
  intros Hx Hy HB.
  destruct x as [sx|sx| |sx mx ex]; try contradiction; [exact I|].
  cbn [mag_le] in Hx. cbn [SFdiv].
  pose proof (div_core_mag mx my ex ey) as Hc.
  destruct (SFdiv_core_binary 24 128 (Zpos mx) ex (Zpos my) ey) as [[q e'] l].
  destruct Hc as (Hq & He' & Hd). unfold f32_fexp in He'.
  replace (Bx - Ly + 2) with (Bx - Ly + 1 + 1) by lia.
  apply round_aux_mag; lia.
Qed.

Lemma mass_in_range_shape (m : float32) :
  mass_in_range m = true ->
  exists (mm : positive) (e : Z),
    m = S754_finite false mm e /\ -31 <= Zpos (digits2_pos mm) + e <= 33.
Proof.
  unfold mass_in_range.
  change (slit 1 4294967296) with (S754_finite false 8388608 (-55)).
  change (slit 4294967296 1) with (S754_finite false 8388608 9).
  cbn [sltb float32_scalar]. intros H.
  apply andb_prop in H as [H Hhi]. apply andb_prop in H as [Hv Hlo].
  destruct m as [s|s| |s mm e]; try discriminate.
  - destruct s; discriminate.
  - destruct s; [discriminate|].
    exists mm, e. split; [reflexivity|].
    unfold SFltb, SFcompare in Hlo, Hhi.
    cbn [valid_binary] in Hv. unfold bounded, canonical_mantissa in Hv.
    apply andb_prop in Hv as [Hc _]. apply Z.eqb_eq in Hc.
    change (fexp 24 128) with f32_fexp in Hc. unfold f32_fexp in Hc.
    assert (Hge : -55 <= e).
    { destruct (Z.compare_spec (-55) e); try lia; discriminate. }
    assert (Hle : e <= 9).
    { destruct (Z.compare_spec e 9); try lia; discriminate. }
    lia.
Qed.

Lemma mag_le_is_finite (B : Z) (x : float32) : mag_le B x -> is_finite x = true.
Proof. now destruct x. Qed.

(** With masses in range the force term [G * m_i * m_j / SOFTENING / m_i]
    is below 2^110: it does not overflow. *)
Lemma force_term_mag (mi mj : float32) :
  mass_in_range mi = true -> mass_in_range mj = true ->
  mag_le 110 (sdiv (sdiv (smul (smul G mi) mj) SOFTENING) mi).
Proof.
  intros Hi Hj.
  destruct (mass_in_range_shape mi Hi) as (m1 & e1 & -> & Hb1).
  destruct (mass_in_range_shape mj Hj) as (m2 & e2 & -> & Hb2).
  change (G (T:=float32)) with (S754_finite false 8388608 (-23)).
  change (SOFTENING (T:=float32)) with (S754_finite false 10737418 (-30)).
  cbn [smul sdiv float32_scalar].
  assert (H1 : mag_le 35 (SFmul 24 128 (S754_finite false 8388608 (-23))
                            (S754_finite false m1 e1))).
  { apply (mul_mag 1 33); cbn [mag_le digits2_pos]; lia. }
  assert (H2 : mag_le 69 (SFmul 24 128
                            (SFmul 24 128 (S754_finite false 8388608 (-23))
                               (S754_finite false m1 e1))
                            (S754_finite false m2 e2))).
  { apply (mul_mag 35 33); [exact H1|cbn [mag_le]; lia|lia]. }
  assert (H3 : mag_le 77 (SFdiv 24 128
                            (SFmul 24 128
                               (SFmul 24 128 (S754_finite false 8388608 (-23))
                                  (S754_finite false m1 e1))
                               (S754_finite false m2 e2))
                            (S754_finite false 10737418 (-30)))).
  { apply (div_mag 69 (-6)); [exact H2|cbn [digits2_pos]; lia|lia]. }
  apply (div_mag 77 (-31)); [exact H3|lia|lia].
Qed.

(** The ends of the range the program draws masses from, the binary32
    values [0.2f] and the last one below [2.0f], are masses in range. *)
Lemma drawn_masses_in_range :
  mass_in_range (slit 1 5) = true /\
  mass_in_range (S754_finite false 16777215 (-23)) = true.
Proof. split; reflexivity. Qed.

(** C4.  Two particles initialised at the same finite point and at rest,
    with binary32 masses in range (between 2^-32 and 2^32, which contains
    the masses [0.2, 2.0) the program draws), come out of one full step
    (gravity pass, collision pass, position integration) with finite
    velocity and position, for every finite frame time [dt]: the softened
    squared distance is exactly [SOFTENING], so the force terms are finite;
    the direction is a zero vector, so the velocities stay zero; and the
    collision pass leaves the pair alone through the [dist < 0.0001f]
    guard. *)
Theorem coincident_pair_stays_finite (a b : Particle float32) (dt : float32) :
  pos a = pos b -> finite_vec (pos a) = true ->
  vel a = vzero -> vel b = vzero ->
  mass_in_range (mass a) = true -> mass_in_range (mass b) = true ->
  is_finite dt = true ->
  softened_distSq a b = SOFTENING /\
  resolve_collisions (gravity_pass dt [a; b]) = gravity_pass dt [a; b] /\
  exists a' b' : Particle float32,
    physics_step dt [a; b] = [a'; b'] /\
    finite_particle a' = true /\ finite_particle b' = true.
Proof.
  intros Hp Hfa Hva Hvb Hma Hmb Hdt.
  assert (Hfb : finite_vec (pos b) = true) by now rewrite <- Hp.
  assert (Hrest : forall p : vec2 float32,
             finite_vec p = true ->
             finite_vec (vadd p (vscale vzero dt)) = true).
  { intros p Hfp. apply andb_prop in Hfp as [Hx Hy].
    unfold finite_vec, vadd, vscale, vzero. cbn [vx vy].
    assert (Hz : is_zero (smul (slit 0 1) dt) = true)
      by (apply f32_zero_mul; [reflexivity|exact Hdt]).
    now rewrite !f32_finite_add_zero. }
  apply coincident_pair_finite_if; try assumption.
  - unfold finite_particle. now rewrite Hfa, Hva.
  - unfold finite_particle. now rewrite Hfb, Hvb.
  - unfold pair_force. rewrite (coincident_softened a b Hp Hfa).
    exact (mag_le_is_finite _ _ (force_term_mag _ _ Hma Hmb)).
  - unfold pair_force. rewrite (coincident_softened b a (eq_sym Hp) Hfb).
    exact (mag_le_is_finite _ _ (force_term_mag _ _ Hmb Hma)).
  - rewrite Hva. now apply Hrest.
  - rewrite Hvb. now apply Hrest.
Qed.

Lemma coincident_pair_stays_finite_witness :
  exists a' b' : Particle float32,
    physics_step scenario_dt [twin; twin] = [a'; b'] /\
    finite_particle a' = true /\ finite_particle b' = true.
Proof.
  apply (coincident_pair_stays_finite twin twin scenario_dt); reflexivity.
Defined.

End Magnitude.

(** ** More of the step, at every scalar instance *)

Section MoreFrame.
Context {T : Type} `{Scalar T}.

Lemma fold_left_preserves_in {A B : Type} (P : A -> Prop) (f : A -> B -> A)
    (l : list B) (a : A) :
  P a -> (forall a x, In x l -> P a -> P (f a x)) -> P (fold_left f l a).
Proof.
  revert a. induction l as [|x l IH]; intros a Ha Hf; cbn [fold_left]; auto.
  apply IH.
  - apply Hf; [now left|exact Ha].
  - intros a' y Hy. apply Hf. now right.
Qed.

(** The collision loop body on a pair of particles in range. *)
Lemma resolve_pair_cases (i j : nat) (ps : list (Particle T))
    (pi pj : Particle T) :
  ps !! i = Some pi -> ps !! j = Some pj ->
  resolve_pair i j ps =
  if overlapping pi pj
  then if coincident pi pj then ps
       else alter (add_pos (correction pi pj)) j
              (alter (sub_pos (correction pi pj)) i
                 (alter (add_vel (smulv (ssub (v2New pi pj) (normal_v2 pi pj))
                                    (contact_normal pi pj))) j
                    (alter (add_vel (smulv (ssub (v1New pi pj) (normal_v1 pi pj))
                                       (contact_normal pi pj))) i ps)))
  else ps.
Proof. intros Hi Hj. unfold resolve_pair. rewrite Hi, Hj. reflexivity. Qed.

Lemma resolve_pair_out_of_range (i j : nat) (ps : list (Particle T)) :
  ps !! i = None \/ ps !! j = None -> resolve_pair i j ps = ps.
Proof.
  intros [Hi|Hj]; unfold resolve_pair.
  - now rewrite Hi.
  - rewrite Hj. now destruct (ps !! i).
Qed.

(** For two distinct indices the four writes of a hit replace the two
    particles by [hit_fst] and [hit_snd]. *)
Lemma resolve_pair_hit (i j : nat) (ps : list (Particle T))
    (pi pj : Particle T) :
  i <> j -> ps !! i = Some pi -> ps !! j = Some pj ->
  overlapping pi pj = true -> coincident pi pj = false ->
  resolve_pair i j ps =
  alter (fun _ => hit_snd pi pj) j (alter (fun _ => hit_fst pi pj) i ps).
Proof.
  intros Hne Hi Hj Ho Hc.
  rewrite (resolve_pair_cases i j ps pi pj Hi Hj), Ho, Hc.
  rewrite (list_alter_alter_ne (sub_pos _) (add_vel _) _ i j Hne).
  rewrite !list_alter_alter_eq.
  apply list_alter_ext.
  - intros p Hp. rewrite list_lookup_alter_ne in Hp by exact Hne.
    rewrite Hj in Hp. now injection Hp as <-.
  - apply list_alter_ext; [|reflexivity].
    intros p Hp. rewrite Hi in Hp. now injection Hp as <-.
Qed.

Lemma positions_alter (f : Particle T -> Particle T) (i : nat)
    (ps : list (Particle T)) :
  (forall p, pos (f p) = pos p) -> map pos (alter f i ps) = map pos ps.
Proof.
  intros Hf. revert i.
  induction ps as [|p ps IH]; intros [|i]; simpl; auto.
  - now rewrite Hf.
  - f_equal. apply IH.
Qed.

Lemma positions_gravity_pass (dt : T) (ps : list (Particle T)) :
  map pos (gravity_pass dt ps) = map pos ps.
Proof.
  unfold gravity_pass, apply_acceleration.
  apply (fold_left_preserves (fun l => map pos l = map pos ps)); auto.
  intros l i Hl. unfold velocity_body.
  destruct (accumulate_gravity ps !! i); [|exact Hl].
  now rewrite positions_alter.
Qed.

Lemma velocities_integrate (dt : T) (ps : list (Particle T)) :
  map vel (integrate dt ps) = map vel ps.
Proof. unfold integrate. rewrite map_map. now apply map_ext. Qed.

Lemma masses_run (dts : list T) (ps : list (Particle T)) :
  map mass (run dts ps) = map mass ps.
Proof.
  revert ps. induction dts as [|dt dts IH]; intros ps; [reflexivity|].
  unfold run. cbn [fold_left]. fold (run dts (physics_step dt ps)).
  now rewrite IH, masses_physics_step.
Qed.

Lemma length_run (dts : list T) (ps : list (Particle T)) :
  length (run dts ps) = length ps.
Proof.
  rewrite <- (length_map mass), masses_run. apply length_map.
Qed.

Lemma initParticles_app (draw : nat -> T * T * T) (ps : list (Particle T)) :
  initParticles draw ps =
  ps ++ map (fun i => mkParticle (Vec2 (draw i).1.1 (draw i).1.2)
                        vzero (draw i).2)
            (seq 0 PARTICLE_COUNT).
Proof.
  unfold initParticles, PARTICLE_COUNT. cbn [seq fold_left map].
  destruct (draw 0) as [[x0 y0] m0], (draw 1) as [[x1 y1] m1].
  cbn [fst snd]. now rewrite <- app_assoc.
Qed.

Lemma gpuData_map (ps : list (Particle T)) :
  gpuData ps = map (fun p => GPU.mk (pos p) (mass p)) ps.
Proof.
  unfold gpuData.
  assert (Hgen : forall g,
             fold_left (fun g p => g ++ [GPU.mk (pos p) (mass p)]) ps g =
             g ++ map (fun p => GPU.mk (pos p) (mass p)) ps).
  { induction ps as [|p ps IH]; intros g; cbn [fold_left map].
    - now rewrite app_nil_r.
    - rewrite IH, <- app_assoc. reflexivity. }
  apply Hgen.
Qed.

Lemma upload_masses (draw : nat -> T * T * T) (dts : list T) :
  map GPU.mass (gpuData (program draw dts)) = [(draw 0).2; (draw 1).2].
Proof.
  rewrite gpuData_map, map_map. cbn [GPU.mass].
  change (map (fun p => mass p) (program draw dts))
    with (map mass (program draw dts)).
  unfold program. rewrite masses_run, initParticles_app. reflexivity.
Qed.

(** X1. When every pair [i < j] is either not overlapping or closer than
    the [0.0001f] guard, the collision pass changes nothing, whatever the
    number of particles. *)
Theorem resolve_collisions_no_contact (ps : list (Particle T)) :
  (forall (i j : nat) (pi pj : Particle T),
     i < j -> ps !! i = Some pi -> ps !! j = Some pj ->
     overlapping pi pj = false \/ coincident pi pj = true) ->
  resolve_collisions ps = ps.
Proof.
  intros Hfree. unfold resolve_collisions.
  apply (fold_left_preserves (fun l => l = ps)); [reflexivity|].
  intros l i ->.
  apply (fold_left_preserves_in (fun l => l = ps)); [reflexivity|].
  intros l j Hj ->. apply in_seq in Hj.
  destruct (ps !! i) as [pi|] eqn:Hpi;
    [|apply resolve_pair_out_of_range; now left].
  destruct (ps !! j) as [pj|] eqn:Hpj;
    [|apply resolve_pair_out_of_range; now right].
  rewrite (resolve_pair_cases i j ps pi pj Hpi Hpj).
  destruct (Hfree i j pi pj) as [->| ->]; try assumption; try lia.
  - reflexivity.
  - now destruct (overlapping pi pj).
Qed.

(** X2. The gravity pass writes velocities only and the position
    integration writes positions only: the former keeps every position, the
    latter every velocity. *)
Theorem passes_write_one_field (dt : T) (ps : list (Particle T)) :
  map pos (gravity_pass dt ps) = map pos ps /\
  map vel (integrate dt ps) = map vel ps.
Proof. split; [apply positions_gravity_pass|apply velocities_integrate]. Qed.

(** X3. Over a whole run of frames the number of particles and the mass
    at every index stay what they were, and running two batches of frames
    one after the other is running their concatenation. *)
Theorem run_frame (dts dts' : list T) (ps : list (Particle T)) :
  length (run dts ps) = length ps /\
  map mass (run dts ps) = map mass ps /\
  run (dts ++ dts') ps = run dts' (run dts ps).
Proof.
  split; [apply length_run|]. split; [apply masses_run|].
  unfold run. apply fold_left_app.
Qed.

(** X4. [initParticles] appends exactly [PARTICLE_COUNT] = 2 particles to
    the vector, in draw order, each at rest and with the drawn position and
    mass; what the vector held before is kept in front. *)
Theorem initParticles_appends (draw : nat -> T * T * T)
    (particles : list (Particle T)) :
  length (initParticles draw particles) = length particles + PARTICLE_COUNT /\
  (forall i p, particles !! i = Some p ->
               initParticles draw particles !! i = Some p) /\
  (forall i, i < PARTICLE_COUNT ->
     initParticles draw particles !! (length particles + i) =
     Some (mkParticle (Vec2 (draw i).1.1 (draw i).1.2) vzero (draw i).2)).
Proof.
  rewrite initParticles_app. split; [|split].
  - now rewrite length_app, length_map, length_seq.
  - intros i p Hi. rewrite lookup_app_l by now apply lookup_lt_Some in Hi.
    exact Hi.
  - intros i Hi. rewrite lookup_app_r by lia.
    replace (length particles + i - length particles) with i by lia.
    unfold PARTICLE_COUNT in *.
    destruct i as [|[|i]]; [reflexivity|reflexivity|lia].
Qed.

(** X5. In every frame of the program the upload holds one [GPUData] per
    particle, in index order, with the particle's current position and the
    mass it was given by [initParticles]; so the bytes sent by
    [glBufferSubData] are exactly the bytes allocated by [glBufferData]. *)
Theorem upload_matches_buffer (draw : nat -> T * T * T) (dts : list T)
    (size : nat) :
  length (gpuData (program draw dts)) = PARTICLE_COUNT /\
  upload_bytes size (gpuData (program draw dts)) = buffer_bytes size /\
  map GPU.mass (gpuData (program draw dts)) = [(draw 0).2; (draw 1).2] /\
  map GPU.pos (gpuData (program draw dts)) = map pos (program draw dts).
Proof.
  pose proof (upload_masses draw dts) as Hm.
  assert (Hl : length (gpuData (program draw dts)) = PARTICLE_COUNT).
  { rewrite <- (length_map GPU.mass), Hm. reflexivity. }
  split; [exact Hl|]. split; [|split; [exact Hm|]].
  - unfold upload_bytes, buffer_bytes. now rewrite Hl.
  - rewrite gpuData_map, map_map. reflexivity.
Qed.

(** X18. The attributes uploaded for a particle carry the mass it was
    given at start-up in every frame, so its sprite never changes during
    the run: the point size is ten times that mass and the colour and alpha
    of every fragment are those computed from that mass. *)
Theorem sprite_constant (draw : nat -> T * T * T) (dts : list T) (k : nat)
    (g : GPU.GPUData T) :
  gpuData (program draw dts) !! k = Some g ->
  gl_PointSize (vertexShader (GPU.pos g) (GPU.mass g)) =
  smul (draw k).2 (slit 10 1) /\
  forall gl_PointCoord : vec2 T,
    draw_fragment g gl_PointCoord = fragmentShader gl_PointCoord (draw k).2.
Proof.
  intros Hk.
  assert (Hm : GPU.mass g = (draw k).2).
  { assert (Hl : map GPU.mass (gpuData (program draw dts)) !! k =
                 Some (GPU.mass g)).
    { change (map GPU.mass (gpuData (program draw dts)))
        with (GPU.mass <$> gpuData (program draw dts)).
      rewrite list_lookup_fmap, Hk. reflexivity. }
    rewrite upload_masses in Hl.
    destruct k as [|[|k]]; cbn [lookup list_lookup] in Hl; [| |discriminate];
      injection Hl as Hl; symmetry; exact Hl. }
  unfold draw_fragment, vertexShader. cbn [gl_PointSize out_mass].
  rewrite Hm. split; reflexivity.
Qed.

End MoreFrame.

Lemma resolve_collisions_no_contact_witness :
  resolve_collisions (T:=float32) [scenario_A; scenario_B] =
  [scenario_A; scenario_B].
Proof.
  apply resolve_collisions_no_contact.
  intros i j pi pj Hij Hi Hj.
  destruct i as [|[|i]], j as [|[|j]]; try lia;
    cbn [lookup list_lookup] in Hi, Hj; try discriminate.
  injection Hi as <-. injection Hj as <-. left. vm_compute. reflexivity.
Defined.

Lemma sprite_constant_witness :
  exists g : GPU.GPUData float32,
    gpuData (program (fun k => match k with
                               | O => (slit (-1) 10, slit 0 1, slit 1 1)
                               | _ => (slit 1 10, slit 0 1, slit 3 2)
                               end) [scenario_dt; scenario_dt]) !! 1%nat =
    Some g /\
    gl_PointSize (vertexShader (GPU.pos g) (GPU.mass g)) =
    smul (slit 3 2) (slit 10 1) /\
    forall gl_PointCoord : vec2 float32,
      draw_fragment g gl_PointCoord = fragmentShader gl_PointCoord (slit 3 2).
Proof.
  eexists. split; [vm_compute; reflexivity|].
  apply (sprite_constant
           (fun k => match k with
                     | O => (slit (-1) 10, slit 0 1, slit 1 1)
                     | _ => (slit 1 10, slit 0 1, slit 3 2)
                     end) [scenario_dt; scenario_dt] 1).
  vm_compute. reflexivity.
Defined.

(** ** Exact arithmetic: the collision pass on any number of particles *)

Section CollisionSums.
Local Open Scope R_scope.

Lemma Rsum_alter {B : Type} (f : B -> R) (g : B -> B) (i : nat) (l : list B)
    (p : B) :
  l !! i = Some p -> Rsum f (alter g i l) = Rsum f l + (f (g p) - f p).
Proof.
  revert i. induction l as [|x l IH]; intros [|i] Hi; try discriminate.
  - injection Hi as ->. cbn [alter list_alter]. rewrite !Rsum_cons. ring.
  - cbn [alter list_alter]. rewrite !Rsum_cons.
    change (list_alter g i l) with (alter g i l).
    rewrite (IH i Hi). ring.
Qed.

Lemma Rsum_fold_left {B : Type} (f : B -> R) (l : list B) (a : R) :
  fold_left (fun s x => s + f x) l a = a + Rsum f l.
Proof.
  revert a. induction l as [|x l IH]; intros a; cbn [fold_left].
  - rewrite Rsum_nil. ring.
  - rewrite IH, Rsum_cons. ring.
Qed.

(** A hit changes a sum over the particles by what the two particles
    contribute. *)
Lemma resolve_pair_sum (f : Particle R -> R) (i j : nat)
    (ps : list (Particle R)) (pi pj : Particle R) :
  i <> j -> ps !! i = Some pi -> ps !! j = Some pj ->
  overlapping pi pj = true -> coincident pi pj = false ->
  Rsum f (resolve_pair i j ps) =
  Rsum f ps + (f (hit_fst pi pj) - f pi) + (f (hit_snd pi pj) - f pj).
Proof.
  intros Hne Hi Hj Ho Hc.
  rewrite (resolve_pair_hit i j ps pi pj Hne Hi Hj Ho Hc).
  rewrite (Rsum_alter f _ j _ pj)
    by (rewrite list_lookup_alter_ne by exact Hne; exact Hj).
  now rewrite (Rsum_alter f _ i _ pi Hi).
Qed.

Section Invariant.
Variable Q : R -> Prop.
Variable f : Particle R -> R.
Hypothesis pair_balance :
  forall a b : Particle R,
    Q (mass a) -> Q (mass b) -> coincident a b = false ->
    f (hit_fst a b) + f (hit_snd a b) = f a + f b.

Lemma Forall_masses_lookup (ps : list (Particle R)) (i : nat)
    (p : Particle R) :
  Forall Q (map mass ps) -> ps !! i = Some p -> Q (mass p).
Proof.
  revert i. induction ps as [|x ps IH]; intros [|i] HQ Hi; try discriminate;
    cbn [map] in HQ; inversion HQ; subst.
  - now injection Hi as <-.
  - now apply (IH i).
Qed.

Lemma resolve_pair_keeps_sum (i j : nat) (ps : list (Particle R)) :
  Forall Q (map mass ps) -> i <> j ->
  Rsum f (resolve_pair i j ps) = Rsum f ps.
Proof.
  intros HQ Hne.
  destruct (ps !! i) as [pi|] eqn:Hi;
    [|now rewrite resolve_pair_out_of_range by now left].
  destruct (ps !! j) as [pj|] eqn:Hj;
    [|now rewrite resolve_pair_out_of_range by now right].
  destruct (overlapping pi pj) eqn:Ho;
    [|now rewrite (resolve_pair_cases i j ps pi pj Hi Hj), Ho].
  destruct (coincident pi pj) eqn:Hc;
    [now rewrite (resolve_pair_cases i j ps pi pj Hi Hj), Ho, Hc|].
  rewrite (resolve_pair_sum f i j ps pi pj Hne Hi Hj Ho Hc).
  pose proof (Forall_masses_lookup ps i pi HQ Hi) as HQi.
  pose proof (Forall_masses_lookup ps j pj HQ Hj) as HQj.
  pose proof (pair_balance pi pj HQi HQj Hc). lra.
Qed.

Lemma resolve_collisions_keeps_sum (ps : list (Particle R)) :
  Forall Q (map mass ps) ->
  Rsum f (resolve_collisions ps) = Rsum f ps.
Proof.
  intros HQ. unfold resolve_collisions.
  apply (fold_left_preserves
           (fun l => map mass l = map mass ps /\ Rsum f l = Rsum f ps));
    [now split|].
  intros l i Hl.
  apply (fold_left_preserves_in
           (fun l => map mass l = map mass ps /\ Rsum f l = Rsum f ps));
    [exact Hl|].
  intros l' j Hj [Hm Hs]. apply in_seq in Hj. split.
  - now rewrite masses_resolve_pair.
  - rewrite resolve_pair_keeps_sum; [exact Hs| |lia]. now rewrite Hm.
Qed.
End Invariant.

Lemma hit_momentum_x (a b : Particle R) :
  0 < mass a -> 0 < mass b -> coincident a b = false ->
  mass (hit_fst a b) * vx (vel (hit_fst a b)) +
  mass (hit_snd a b) * vx (vel (hit_snd a b)) =
  mass a * vx (vel a) + mass b * vx (vel b).
Proof.
  intros Ha Hb _. pose proof (impulses_cancel a b Ha Hb) as Hi.
  unfold hit_fst, hit_snd.
  cbn [add_vel sub_pos add_pos vel mass vadd smulv vx sadd ssub smul R_scalar].
  set (d1 := v1New a b - normal_v1 a b) in *.
  set (d2 := v2New a b - normal_v2 a b) in *.
  replace (mass a * (vx (vel a) + d1 * vx (contact_normal a b)) +
           mass b * (vx (vel b) + d2 * vx (contact_normal a b)))
    with (mass a * vx (vel a) + mass b * vx (vel b) +
          (mass a * d1 + mass b * d2) * vx (contact_normal a b)) by ring.
  rewrite Hi. ring.
Qed.

Lemma hit_momentum_y (a b : Particle R) :
  0 < mass a -> 0 < mass b -> coincident a b = false ->
  mass (hit_fst a b) * vy (vel (hit_fst a b)) +
  mass (hit_snd a b) * vy (vel (hit_snd a b)) =
  mass a * vy (vel a) + mass b * vy (vel b).
Proof.
  intros Ha Hb _. pose proof (impulses_cancel a b Ha Hb) as Hi.
  unfold hit_fst, hit_snd.
  cbn [add_vel sub_pos add_pos vel mass vadd smulv vy sadd ssub smul R_scalar].
  set (d1 := v1New a b - normal_v1 a b) in *.
  set (d2 := v2New a b - normal_v2 a b) in *.
  replace (mass a * (vy (vel a) + d1 * vy (contact_normal a b)) +
           mass b * (vy (vel b) + d2 * vy (contact_normal a b)))
    with (mass a * vy (vel a) + mass b * vy (vel b) +
          (mass a * d1 + mass b * d2) * vy (contact_normal a b)) by ring.
  rewrite Hi. ring.
Qed.

Lemma hit_kinetic_energy (a b : Particle R) :
  0 < mass a -> 0 < mass b -> coincident a b = false ->
  kinetic_energy (hit_fst a b) + kinetic_energy (hit_snd a b) =
  kinetic_energy a + kinetic_energy b.
Proof.
  intros Ha Hb Hc. pose proof (contact_normal_unit a b Hc) as Hn.
  unfold kinetic_energy, hit_fst, hit_snd, v1New, v2New, normal_v1, normal_v2.
  set (n := contact_normal a b) in *.
  cbn [add_vel sub_pos add_pos vel mass dot vadd smulv vx vy
       sadd ssub smul sdiv slit R_scalar].
  pose proof (elastic_energy_balance (mass a) (mass b)
                (vx (vel a)) (vy (vel a)) (vx (vel b)) (vy (vel b))
                (vx n) (vy n) Ha Hb Hn) as He.
  cbv zeta in He. lra.
Qed.

Lemma hit_position_x (a b : Particle R) :
  True -> True -> coincident a b = false ->
  vx (pos (hit_fst a b)) + vx (pos (hit_snd a b)) = vx (pos a) + vx (pos b).
Proof.
  intros _ _ _. unfold hit_fst, hit_snd.
  cbn [add_vel sub_pos add_pos pos vadd vsub vx sadd ssub R_scalar]. ring.
Qed.

Lemma hit_position_y (a b : Particle R) :
  True -> True -> coincident a b = false ->
  vy (pos (hit_fst a b)) + vy (pos (hit_snd a b)) = vy (pos a) + vy (pos b).
Proof.
  intros _ _ _. unfold hit_fst, hit_snd.
  cbn [add_vel sub_pos add_pos pos vadd vsub vy sadd ssub R_scalar]. ring.
Qed.

Lemma total_momentum_sums (ps : list (Particle R)) :
  total_momentum ps =
  Vec2 (Rsum (fun p => mass p * vx (vel p)) ps)
       (Rsum (fun p => mass p * vy (vel p)) ps).
Proof.
  unfold total_momentum. apply vec2_eq; cbn [vx vy].
  - rewrite vx_fold_vadd. unfold vzero. cbn [vx slit R_scalar].
    unfold momentum, smulv. cbn [vx smul R_scalar]. field.
  - rewrite vy_fold_vadd. unfold vzero. cbn [vy slit R_scalar].
    unfold momentum, smulv. cbn [vy smul R_scalar]. field.
Qed.

Lemma total_kinetic_energy_sum (ps : list (Particle R)) :
  total_kinetic_energy ps = Rsum kinetic_energy ps.
Proof. unfold total_kinetic_energy. rewrite Rsum_fold_left. ring. Qed.

Lemma trivial_masses (ps : list (Particle R)) :
  Forall (fun _ : R => True) (map mass ps).
Proof. apply Forall_forall. intros; exact I. Qed.

Lemma resolve_collisions_momentum (ps : list (Particle R)) :
  positive_masses ps ->
  total_momentum (resolve_collisions ps) = total_momentum ps.
Proof.
  intros Hp. rewrite !total_momentum_sums. f_equal.
  - now apply (resolve_collisions_keeps_sum (fun m => 0 < m) _ hit_momentum_x).
  - now apply (resolve_collisions_keeps_sum (fun m => 0 < m) _ hit_momentum_y).
Qed.

(** X6. On any number of particles of positive mass the collision pass,
    with all the pairs it resolves one after the other, leaves the total
    momentum unchanged. *)
Theorem collision_pass_conserves_momentum (ps : list (Particle R)) :
  positive_masses ps ->
  total_momentum (resolve_collisions ps) = total_momentum ps.
Proof.
  intros Hp. rewrite !total_momentum_sums. f_equal.
  - now apply (resolve_collisions_keeps_sum (fun m => 0 < m) _ hit_momentum_x).
  - now apply (resolve_collisions_keeps_sum (fun m => 0 < m) _ hit_momentum_y).
Qed.

(** X7. On any number of particles of positive mass the collision pass
    leaves the total kinetic energy unchanged. *)
Theorem collision_pass_conserves_kinetic_energy (ps : list (Particle R)) :
  positive_masses ps ->
  total_kinetic_energy (resolve_collisions ps) = total_kinetic_energy ps.
Proof.
  intros Hp. rewrite !total_kinetic_energy_sum.
  now apply (resolve_collisions_keeps_sum (fun m => 0 < m) _ hit_kinetic_energy).
Qed.

(** X8. The overlap correction pushes the two particles of a pair by the
    same amount in opposite directions, whatever their masses: the
    collision pass keeps the sum of the positions (the unweighted
    centroid) of any particle sequence. *)
Theorem collision_pass_keeps_centroid (ps : list (Particle R)) :
  Rsum (fun p => vx (pos p)) (resolve_collisions ps) =
  Rsum (fun p => vx (pos p)) ps /\
  Rsum (fun p => vy (pos p)) (resolve_collisions ps) =
  Rsum (fun p => vy (pos p)) ps.
Proof.
  split.
  - apply (resolve_collisions_keeps_sum (fun _ => True) _ hit_position_x),
      trivial_masses.
  - apply (resolve_collisions_keeps_sum (fun _ => True) _ hit_position_y),
      trivial_masses.
Qed.

Lemma three_positive_masses : positive_masses [overlap_a; overlap_b; scenario_A].
Proof.
  unfold positive_masses.
  cbn [map mass overlap_a overlap_b scenario_A slit R_scalar].
  repeat constructor; lra.
Qed.

Lemma collision_pass_conserves_momentum_witness :
  total_momentum (resolve_collisions [overlap_a; overlap_b; scenario_A]) =
  total_momentum [overlap_a; overlap_b; scenario_A].
Proof.
  exact (collision_pass_conserves_momentum _ three_positive_masses).
Defined.

Lemma collision_pass_conserves_kinetic_energy_witness :
  total_kinetic_energy (resolve_collisions [overlap_a; overlap_b; scenario_A]) =
  total_kinetic_energy [overlap_a; overlap_b; scenario_A].
Proof.
  exact (collision_pass_conserves_kinetic_energy _ three_positive_masses).
Defined.

End CollisionSums.

(** ** Exact arithmetic: the whole step and the whole run *)

Section WholeStep.
Local Open Scope R_scope.

Lemma gravity_pass_momentum (dt : R) (ps : list (Particle R)) :
  total_momentum (gravity_pass dt ps) = total_momentum ps.
Proof.
  rewrite gravity_pass_map. unfold total_momentum. apply vec2_eq.
  - rewrite !vx_fold_vadd, Rsum_map. f_equal.
    rewrite (Rsum_ext _ _ _ (momentum_after_x dt ps)), Rsum_plus, Rsum_scal.
    rewrite (Rsum_antisymmetric (fun p q => mass p * vx (gravity_term p q)))
      by (intros p q; apply momentum_exchange).
    ring.
  - rewrite !vy_fold_vadd, Rsum_map. f_equal.
    rewrite (Rsum_ext _ _ _ (momentum_after_y dt ps)), Rsum_plus, Rsum_scal.
    rewrite (Rsum_antisymmetric (fun p q => mass p * vy (gravity_term p q)))
      by (intros p q; apply momentum_exchange).
    ring.
Qed.

Lemma integrate_momentum (dt : R) (ps : list (Particle R)) :
  total_momentum (integrate dt ps) = total_momentum ps.
Proof.
  rewrite !total_momentum_sums. unfold integrate.
  now rewrite !Rsum_map.
Qed.

Lemma positive_masses_same (ps ps' : list (Particle R)) :
  map mass ps' = map mass ps -> positive_masses ps -> positive_masses ps'.
Proof. unfold positive_masses. now intros ->. Qed.

Lemma physics_step_momentum (dt : R) (ps : list (Particle R)) :
  positive_masses ps ->
  total_momentum (physics_step dt ps) = total_momentum ps.
Proof.
  intros Hp. unfold physics_step.
  rewrite integrate_momentum, resolve_collisions_momentum.
  - apply gravity_pass_momentum.
  - apply (positive_masses_same ps); [apply masses_gravity_pass|exact Hp].
Qed.

Lemma run_momentum (dts : list R) (ps : list (Particle R)) :
  positive_masses ps -> total_momentum (run dts ps) = total_momentum ps.
Proof.
  revert ps. induction dts as [|dt dts IH]; intros ps Hp; [reflexivity|].
  unfold run. cbn [fold_left]. fold (run dts (physics_step dt ps)).
  rewrite IH.
  - now apply physics_step_momentum.
  - apply (positive_masses_same ps); [apply masses_physics_step|exact Hp].
Qed.

Lemma init_positive_masses (draw : nat -> R * R * R) :
  draws_in_range draw -> positive_masses (initParticles draw []).
Proof.
  intros Hr. rewrite initParticles_app. unfold positive_masses, PARTICLE_COUNT.
  cbn [seq map app mass].
  pose proof (Hr 0%nat) as H0. pose proof (Hr 1%nat) as H1.
  destruct (draw 0%nat) as [[x0 y0] m0], (draw 1%nat) as [[x1 y1] m1].
  cbn [fst snd]. repeat constructor; lra.
Qed.

Lemma init_momentum (draw : nat -> R * R * R) :
  total_momentum (initParticles draw []) = Vec2 0 0.
Proof.
  rewrite initParticles_app, total_momentum_sums. unfold PARTICLE_COUNT.
  cbn [seq map app]. rewrite !Rsum_cons, !Rsum_nil. unfold vzero.
  cbn [vel mass vx vy slit R_scalar]. apply vec2_eq; cbn [vx vy]; field.
Qed.

(** X9. With positive masses a whole frame (gravity, collisions,
    integration), and so a whole run of frames, leaves the total momentum
    of any number of particles unchanged. *)
Theorem run_conserves_momentum (dts : list R) (ps : list (Particle R)) :
  positive_masses ps -> total_momentum (run dts ps) = total_momentum ps.
Proof.
  revert ps. induction dts as [|dt dts IH]; intros ps Hp; [reflexivity|].
  unfold run. cbn [fold_left]. fold (run dts (physics_step dt ps)).
  rewrite IH.
  - now apply physics_step_momentum.
  - apply (positive_masses_same ps); [apply masses_physics_step|exact Hp].
Qed.

(** X10. The program starts its particles at rest with masses drawn in
    [0.2, 2.0): whatever the draws and the frame times, the total momentum
    of the particles is zero in every frame. *)
Theorem program_momentum_zero (draw : nat -> R * R * R) (dts : list R) :
  draws_in_range draw -> total_momentum (program draw dts) = Vec2 0 0.
Proof.
  intros Hr. unfold program.
  rewrite run_momentum by now apply init_positive_masses.
  apply init_momentum.
Qed.

Lemma lone_step (dt : R) (p : Particle R) :
  physics_step dt [p] =
  [mkParticle (vadd (pos p) (vscale (vel p) dt)) (vel p) (mass p)].
Proof.
  assert (Hg : gravity_pass dt [p] = [p]).
  { change (gravity_pass dt [p]) with [add_vel (vscale vzero dt) p].
    f_equal. apply particle_eq; cbn [add_vel pos vel mass]; try reflexivity.
    unfold vadd, vscale, vzero. cbn [vx vy sadd smul slit R_scalar].
    apply vec2_eq; cbn [vx vy]; field. }
  unfold physics_step. rewrite Hg. reflexivity.
Qed.

Lemma lone_run (dts : list R) (p : Particle R) :
  run dts [p] =
  [mkParticle (vadd (pos p) (vscale (vel p) (elapsed dts))) (vel p) (mass p)].
Proof.
  revert p. induction dts as [|dt dts IH]; intros p.
  - unfold run, elapsed. cbn [fold_left]. rewrite Rsum_nil. f_equal.
    apply particle_eq; cbn [pos vel mass]; try reflexivity.
    unfold vadd, vscale. cbn [vx vy sadd smul R_scalar].
    apply vec2_eq; cbn [vx vy]; ring.
  - unfold run. cbn [fold_left]. rewrite lone_step.
    fold (run dts [mkParticle (vadd (pos p) (vscale (vel p) dt)) (vel p) (mass p)]).
    rewrite IH. unfold elapsed. rewrite Rsum_cons. f_equal.
    apply particle_eq; cbn [pos vel mass]; try reflexivity.
    unfold vadd, vscale. cbn [vx vy sadd smul R_scalar].
    apply vec2_eq; cbn [vx vy]; ring.
Qed.

(** X11. With no particle a run does nothing, and a lone particle feels no
    force and meets no one: it keeps its velocity and after the frames
    [dts] it has moved by its velocity times the elapsed time. *)
Theorem lone_particle_uniform_motion (dts : list R) (p : Particle R) :
  run dts ([] : list (Particle R)) = [] /\
  run dts [p] =
  [mkParticle (vadd (pos p) (vscale (vel p) (elapsed dts))) (vel p) (mass p)].
Proof.
  split; [|apply lone_run].
  induction dts as [|dt dts IH]; [reflexivity|].
  unfold run. cbn [fold_left]. exact IH.
Qed.

(** *** What a hit does to the velocities *)

Lemma hit_speed_fst (a b : Particle R) :
  coincident a b = false ->
  dot (vel (hit_fst a b)) (contact_normal a b) = v1New a b.
Proof.
  intros Hc. pose proof (contact_normal_unit a b Hc) as Hn.
  unfold hit_fst, normal_v1.
  set (n := contact_normal a b) in *. set (w := v1New a b).
  cbn [add_vel sub_pos vel dot vadd smulv vx vy sadd ssub smul R_scalar].
  replace ((vx (vel a) + (w - (vx (vel a) * vx n + vy (vel a) * vy n)) * vx n) * vx n +
           (vy (vel a) + (w - (vx (vel a) * vx n + vy (vel a) * vy n)) * vy n) * vy n)
    with (w * (vx n * vx n + vy n * vy n) +
          (vx (vel a) * vx n + vy (vel a) * vy n) *
          (1 - (vx n * vx n + vy n * vy n))) by ring.
  rewrite Hn. ring.
Qed.

Lemma hit_speed_snd (a b : Particle R) :
  coincident a b = false ->
  dot (vel (hit_snd a b)) (contact_normal a b) = v2New a b.
Proof.
  intros Hc. pose proof (contact_normal_unit a b Hc) as Hn.
  unfold hit_snd, normal_v2.
  set (n := contact_normal a b) in *. set (w := v2New a b).
  cbn [add_vel add_pos vel dot vadd smulv vx vy sadd ssub smul R_scalar].
  replace ((vx (vel b) + (w - (vx (vel b) * vx n + vy (vel b) * vy n)) * vx n) * vx n +
           (vy (vel b) + (w - (vx (vel b) * vx n + vy (vel b) * vy n)) * vy n) * vy n)
    with (w * (vx n * vx n + vy n * vy n) +
          (vx (vel b) * vx n + vy (vel b) * vy n) *
          (1 - (vx n * vx n + vy n * vy n))) by ring.
  rewrite Hn. ring.
Qed.

Lemma elastic_relative_speed (a b : Particle R) :
  0 < mass a -> 0 < mass b ->
  v2New a b - v1New a b = - (normal_v2 a b - normal_v1 a b).
Proof.
  intros Ha Hb. unfold v1New, v2New.
  cbn [sadd ssub smul sdiv slit R_scalar]. field. lra.
Qed.

(** X12. When two particles of positive mass are hit, their speeds along
    the contact normal become the one-dimensional elastic values [v1New]
    and [v2New], the relative speed along the normal is exactly reversed
    (also when the particles were already moving apart), and the speeds
    across the normal are untouched. *)
Theorem hit_reverses_normal_speed (a b : Particle R) :
  0 < mass a -> 0 < mass b ->
  overlapping a b = true -> coincident a b = false ->
  exists a' b' : Particle R,
    resolve_collisions [a; b] = [a'; b'] /\
    let n := contact_normal a b in
    let t := Vec2 (- vy n) (vx n) in
    dot (vel a') n = v1New a b /\ dot (vel b') n = v2New a b /\
    dot (vel b') n - dot (vel a') n = - (dot (vel b) n - dot (vel a) n) /\
    dot (vel a') t = dot (vel a) t /\ dot (vel b') t = dot (vel b) t.
Proof.
  intros Ha Hb Ho Hc. exists (hit_fst a b), (hit_snd a b). split.
  - now rewrite resolve_collisions_two, Ho, Hc.
  - cbv zeta. rewrite (hit_speed_fst a b Hc), (hit_speed_snd a b Hc).
    split; [reflexivity|]. split; [reflexivity|]. split.
    + exact (elastic_relative_speed a b Ha Hb).
    + unfold hit_fst, hit_snd.
      cbn [add_vel sub_pos add_pos vel dot vadd smulv vx vy
           sadd ssub smul R_scalar].
      split; ring.
Qed.

Lemma run_conserves_momentum_witness :
  total_momentum
    (run [16 / 1000; 16 / 1000] [overlap_a; overlap_b; scenario_A]) =
  total_momentum [overlap_a; overlap_b; scenario_A].
Proof.
  exact (run_conserves_momentum _ _ three_positive_masses).
Defined.

Lemma program_momentum_zero_witness :
  total_momentum
    (program (fun i => if (i =? 0)%nat then (- (1 / 10), 0, 1)
                       else (1 / 10, 0, 1 / 2))
             [16 / 1000; 33 / 1000]) = Vec2 0 0.
Proof.
  apply program_momentum_zero.
  intros i. destruct (i =? 0)%nat; cbv beta iota; repeat split; lra.
Defined.

Lemma hit_reverses_normal_speed_witness :
  exists a' b' : Particle R,
    resolve_collisions [overlap_a; overlap_b] = [a'; b'] /\
    let n := contact_normal overlap_a overlap_b in
    let t := Vec2 (- vy n) (vx n) in
    dot (vel a') n = v1New overlap_a overlap_b /\
    dot (vel b') n = v2New overlap_a overlap_b /\
    dot (vel b') n - dot (vel a') n =
    - (dot (vel overlap_b) n - dot (vel overlap_a) n) /\
    dot (vel a') t = dot (vel overlap_a) t /\
    dot (vel b') t = dot (vel overlap_b) t.
Proof.
  apply hit_reverses_normal_speed.
  - simpl; lra.
  - simpl; lra.
  - exact overlap_pair_overlapping.
  - exact overlap_pair_not_coincident.
Defined.

End WholeStep.

(** ** Exact arithmetic: relabelling the pair, and the size of the pull *)

Section Relabel.
Local Open Scope R_scope.

Lemma center_distSq_sym (a b : Particle R) :
  center_distSq b a = center_distSq a b.
Proof.
  unfold center_distSq, center_diff, dot, vsub.
  cbn [vx vy sadd ssub smul R_scalar]. ring.
Qed.

Lemma center_dist_sym (a b : Particle R) : center_dist b a = center_dist a b.
Proof. unfold center_dist. now rewrite center_distSq_sym. Qed.

Lemma radius_sum_sym (a b : Particle R) : radius_sum b a = radius_sum a b.
Proof. unfold radius_sum. cbn [sadd R_scalar]. ring. Qed.

Lemma overlapping_sym (a b : Particle R) : overlapping b a = overlapping a b.
Proof. unfold overlapping. now rewrite center_distSq_sym, radius_sum_sym. Qed.

Lemma coincident_sym (a b : Particle R) : coincident b a = coincident a b.
Proof. unfold coincident. now rewrite center_dist_sym. Qed.

Lemma contact_normal_sym (a b : Particle R) :
  vx (contact_normal b a) = - vx (contact_normal a b) /\
  vy (contact_normal b a) = - vy (contact_normal a b).
Proof.
  unfold contact_normal. rewrite center_dist_sym.
  unfold vdivs, center_diff, vsub. cbn [vx vy ssub sdiv R_scalar].
  unfold Rdiv. split; ring.
Qed.

Lemma normal_speeds_sym (a b : Particle R) :
  normal_v1 b a = - normal_v2 a b /\ normal_v2 b a = - normal_v1 a b.
Proof.
  destruct (contact_normal_sym a b) as [Hx Hy].
  unfold normal_v1, normal_v2, dot. cbn [sadd smul R_scalar].
  rewrite Hx, Hy. split; ring.
Qed.

Lemma new_speeds_sym (a b : Particle R) :
  v1New b a = - v2New a b /\ v2New b a = - v1New a b.
Proof.
  destruct (normal_speeds_sym a b) as [H1 H2].
  unfold v1New, v2New. rewrite H1, H2.
  cbn [sadd ssub smul sdiv slit R_scalar].
  replace (mass b + mass a) with (mass a + mass b) by ring.
  unfold Rdiv. split; ring.
Qed.

Lemma hit_sym (a b : Particle R) :
  hit_fst b a = hit_snd a b /\ hit_snd b a = hit_fst a b.
Proof.
  destruct (contact_normal_sym a b) as [Hx Hy].
  destruct (normal_speeds_sym a b) as [H1 H2].
  destruct (new_speeds_sym a b) as [H3 H4].
  unfold hit_fst, hit_snd, correction, penetration.
  rewrite center_dist_sym, radius_sum_sym, H1, H2, H3, H4.
  split; apply particle_eq;
    cbn [add_vel sub_pos add_pos pos vel mass]; try reflexivity;
    unfold vadd, vsub, vscale, smulv;
    cbn [vx vy sadd ssub smul sdiv slit R_scalar];
    rewrite Hx, Hy; apply vec2_eq; cbn [vx vy]; ring.
Qed.

Lemma resolve_collisions_swap (a b : Particle R) :
  resolve_collisions [b; a] = rev (resolve_collisions [a; b]).
Proof.
  rewrite !resolve_collisions_two, overlapping_sym, coincident_sym.
  destruct (hit_sym a b) as [-> ->].
  destruct (overlapping a b); [|reflexivity].
  now destruct (coincident a b).
Qed.

(** X13. The step does not depend on which of two particles comes first
    in the vector: exchanging them exchanges the results, for the collision
    pass (normal, impulses and correction are antisymmetric) and for the
    whole frame. *)
Theorem physics_step_relabel (dt : R) (a b : Particle R) :
  resolve_collisions [b; a] = rev (resolve_collisions [a; b]) /\
  physics_step dt [b; a] = rev (physics_step dt [a; b]).
Proof.
  split; [apply resolve_collisions_swap|].
  rewrite !physics_step_two, resolve_collisions_swap.
  unfold integrate. now rewrite map_rev.
Qed.

(** *** The pull of one particle on another *)

(** X14. With positive masses the acceleration a particle receives from
    another points toward it (its scalar product with the separation is
    not negative) and, thanks to the softening, its magnitude is at most
    [100 * mass_j] however close the two particles are. *)
Theorem gravity_term_bounded (pi pj : Particle R) :
  0 < mass pi -> 0 < mass pj ->
  0 <= dot (gravity_term pi pj) (vsub (pos pj) (pos pi)) /\
  dot (gravity_term pi pj) (gravity_term pi pj) <=
  (100 * mass pj) * (100 * mass pj).
Proof.
  intros Hi Hj. rewrite gravity_term_eq. unfold pull_dir, pair_force.
  assert (Hs : softened_distSq pi pj =
               vx (vsub (pos pj) (pos pi)) * vx (vsub (pos pj) (pos pi)) +
               vy (vsub (pos pj) (pos pi)) * vy (vsub (pos pj) (pos pi)) +
               1 / 100).
  { unfold softened_distSq, dot, SOFTENING.
    cbn [sadd smul slit R_scalar]. reflexivity. }
  set (s := softened_distSq pi pj) in *.
  set (dx := vx (vsub (pos pj) (pos pi))) in *.
  set (dy := vy (vsub (pos pj) (pos pi))) in *.
  assert (Hspos : 1 / 100 <= s) by nra.
  assert (Hsq : sqrt s * sqrt s = s) by (apply sqrt_sqrt; lra).
  assert (Hrpos : 0 < sqrt s) by (apply sqrt_lt_R0; lra).
  unfold vscale, vdivs, dot, G.
  cbn [vx vy sadd smul sdiv ssqrt slit R_scalar].
  fold dx dy.
  set (r := sqrt s) in *.
  assert (Hc : 1 / 1 * mass pi * mass pj / s / mass pi = mass pj / s)
    by (field; lra).
  rewrite Hc.
  set (c := mass pj / s).
  assert (Hcs : c * s = mass pj) by (unfold c; field; lra).
  assert (Hc0 : 0 <= c) by nra.
  assert (Hc1 : c <= 100 * mass pj) by nra.
  assert (Hu : dx / r * r = dx) by (field; lra).
  assert (Hv : dy / r * r = dy) by (field; lra).
  set (u := dx / r) in *. set (v := dy / r) in *.
  assert (Huv : (u * u + v * v) * s = s - 1 / 100).
  { rewrite <- Hsq at 1. rewrite Hs. 
    replace ((u * u + v * v) * (r * r)) with ((u * r) * (u * r) + (v * r) * (v * r)) by ring.
    rewrite Hu, Hv. ring. }
  assert (Huv1 : u * u + v * v <= 1) by nra.
  assert (Huv0 : 0 <= u * u + v * v) by nra.
  split.
  - replace (u * c * dx + v * c * dy) with (u * c * (u * r) + v * c * (v * r))
      by (rewrite Hu, Hv; reflexivity).
    replace (u * c * (u * r) + v * c * (v * r))
      with (c * ((u * u + v * v) * r)) by ring.
    apply Rmult_le_pos; [exact Hc0|]. apply Rmult_le_pos; lra.
  - replace (u * c * (u * c) + v * c * (v * c)) with (c * c * (u * u + v * v))
      by ring.
    assert (Hcc : c * c <= 100 * mass pj * (100 * mass pj)) by nra.
    assert (Hcc0 : 0 <= c * c) by nra.
    nra.
Qed.

Lemma gravity_term_bounded_witness :
  0 <= dot (gravity_term overlap_a overlap_b)
           (vsub (pos overlap_b) (pos overlap_a)) /\
  dot (gravity_term overlap_a overlap_b) (gravity_term overlap_a overlap_b) <=
  (100 * mass overlap_b) * (100 * mass overlap_b).
Proof. apply gravity_term_bounded; simpl; lra. Defined.

End Relabel.

(** ** The shaders, in exact arithmetic, and what reaches them *)

Section Shaders.
Local Open Scope R_scope.

Lemma clamp_unit (x : R) :
  0 <= clamp x (slit 0 1) (slit 1 1) <= 1 /\
  (x <= 0 -> clamp x (slit 0 1) (slit 1 1) = 0) /\
  (1 <= x -> clamp x (slit 0 1) (slit 1 1) = 1) /\
  (0 <= x <= 1 -> clamp x (slit 0 1) (slit 1 1) = x).
Proof.
  unfold clamp, glsl_min, glsl_max. cbn [sltb slit R_scalar].
  destruct (Rlt_dec x (0 / 1)) as [H0|H0];
    [destruct (Rlt_dec (1 / 1) (0 / 1)) as [H1|H1]
    |destruct (Rlt_dec (1 / 1) x) as [H1|H1]];
    repeat split; intros; lra.
Qed.

Lemma smoothstep_unit (e0 e1 x : R) :
  0 <= smoothstep e0 e1 x <= 1.
Proof.
  unfold smoothstep.
  destruct (clamp_unit ((x - e0) / (e1 - e0))) as [Ht _].
  cbn [ssub sdiv R_scalar] in *.
  set (t := clamp ((x - e0) / (e1 - e0)) (slit 0 1) (slit 1 1)) in *.
  cbv zeta. cbn [smul ssub slit R_scalar].
  assert (Hlow : 0 <= t * t * (3 / 1 - 2 / 1 * t)).
  { apply Rmult_le_pos; [apply Rmult_le_pos; lra|lra]. }
  assert (Hup : 0 <= (1 - t) * (1 - t) * (1 + 2 * t)).
  { apply Rmult_le_pos; [apply Rmult_le_pos; lra|lra]. }
  split; [exact Hlow|].
  replace (t * t * (3 / 1 - 2 / 1 * t))
    with (1 - (1 - t) * (1 - t) * (1 + 2 * t)) by field.
  lra.
Qed.

Lemma smoothstep_below (e0 e1 x : R) :
  e0 < e1 -> x <= e0 -> smoothstep e0 e1 x = 0.
Proof.
  intros He Hx. unfold smoothstep.
  destruct (clamp_unit ((x - e0) / (e1 - e0))) as (_ & H0 & _).
  cbn [ssub sdiv R_scalar] in *. rewrite H0.
  - cbn [smul ssub slit R_scalar]. ring.
  - apply Rmult_le_reg_r with (e1 - e0); [lra|].
    replace ((x - e0) / (e1 - e0) * (e1 - e0)) with (x - e0) by (field; lra).
    lra.
Qed.

Lemma smoothstep_above (e0 e1 x : R) :
  e0 < e1 -> e1 <= x -> smoothstep e0 e1 x = 1.
Proof.
  intros He Hx. unfold smoothstep.
  destruct (clamp_unit ((x - e0) / (e1 - e0))) as (_ & _ & H1 & _).
  cbn [ssub sdiv R_scalar] in *. rewrite H1.
  - cbn [smul ssub slit R_scalar]. field.
  - apply Rmult_le_reg_r with (e1 - e0); [lra|].
    replace ((x - e0) / (e1 - e0) * (e1 - e0)) with (x - e0) by (field; lra).
    lra.
Qed.

Lemma mix_between (x y a : R) :
  0 <= a <= 1 -> Rmin x y <= mix x y a <= Rmax x y.
Proof.
  intros Ha. unfold mix. cbn [sadd ssub smul slit R_scalar].
  unfold Rmin, Rmax. destruct (Rle_dec x y); split; nra.
Qed.

(** The fragment shader on a fragment it keeps. *)
Lemma fragment_kept (coord : vec2 R) (m : R) :
  glsl_length (vsub coord (Vec2 (5 / 10) (5 / 10))) <= 5 / 10 ->
  fragmentShader coord m =
  Some (Vec4 (mix (1 / 10) (1 / 1) (clamp (m / 2) (slit 0 1) (slit 1 1)))
             (mix (6 / 10) (9 / 10) (clamp (m / 2) (slit 0 1) (slit 1 1)))
             (mix (1 / 1) (2 / 10) (clamp (m / 2) (slit 0 1) (slit 1 1)))
             (1 - smoothstep (45 / 100) (5 / 10)
                    (glsl_length (vsub coord (Vec2 (5 / 10) (5 / 10)))))).
Proof.
  intros Hr. unfold fragmentShader.
  cbn [slit R_scalar] in *.
  assert (Hk : sltb (5 / 10)
                 (glsl_length (vsub coord (Vec2 (5 / 10) (5 / 10)))) = false)
    by now apply sltb_R_false.
  rewrite Hk. cbn [v3x v3y v3z ssub sdiv R_scalar].
  repeat f_equal; field.
Qed.

Lemma fragment_discarded (coord : vec2 R) (m : R) :
  5 / 10 < glsl_length (vsub coord (Vec2 (5 / 10) (5 / 10))) ->
  fragmentShader coord m = None.
Proof.
  intros Hr. unfold fragmentShader. cbn [slit R_scalar] in *.
  assert (Hk : sltb (5 / 10)
                 (glsl_length (vsub coord (Vec2 (5 / 10) (5 / 10)))) = true)
    by now apply sltb_R_true.
  now rewrite Hk.
Qed.

(** X15. The fragment shader discards exactly the fragments farther than
    0.5 from the centre of the sprite; for the others the alpha it writes
    is between 0 and 1, is 1 on the whole disc of radius 0.45 and falls to
    0 at the rim. *)
Theorem fragment_alpha (coord : vec2 R) (m : R) :
  let r := glsl_length (vsub coord (Vec2 (5 / 10) (5 / 10))) in
  (5 / 10 < r -> fragmentShader coord m = None) /\
  (r <= 5 / 10 ->
   exists out : vec4 R,
     fragmentShader coord m = Some out /\
     0 <= v4w out <= 1 /\
     (r <= 45 / 100 -> v4w out = 1) /\
     (r = 5 / 10 -> v4w out = 0)).
Proof.
  intros r. split; [apply fragment_discarded|].
  intros Hr. eexists. split; [now apply fragment_kept|].
  cbn [v4w]. fold r.
  pose proof (smoothstep_unit (45 / 100) (5 / 10) r) as Hs.
  split; [lra|]. split.
  - intros Hin. rewrite smoothstep_below by lra. ring.
  - intros Hrim. rewrite smoothstep_above by lra. ring.
Qed.

(** X16. Whatever the mass, also negative or huge, the colour of a kept
    fragment is a valid blend: red in [0.1, 1], green in [0.6, 0.9], blue
    in [0.2, 1]; it is the heavy colour from mass 2 on and the base colour
    for a mass of 0 or less. *)
Theorem fragment_color (coord : vec2 R) (m : R) :
  glsl_length (vsub coord (Vec2 (5 / 10) (5 / 10))) <= 5 / 10 ->
  exists out : vec4 R,
    fragmentShader coord m = Some out /\
    (1 / 10 <= v4x out <= 1 /\ 6 / 10 <= v4y out <= 9 / 10 /\
     2 / 10 <= v4z out <= 1) /\
    (2 <= m -> v4x out = 1 /\ v4y out = 9 / 10 /\ v4z out = 2 / 10) /\
    (m <= 0 -> v4x out = 1 / 10 /\ v4y out = 6 / 10 /\ v4z out = 1).
Proof.
  intros Hr. eexists. split; [now apply fragment_kept|].
  cbn [v4x v4y v4z].
  destruct (clamp_unit (m / 2)) as (Ha & Hlo & Hhi & _).
  set (a := clamp (m / 2) (slit 0 1) (slit 1 1)) in *.
  split; [|split].
  - pose proof (mix_between (1 / 10) (1 / 1) a Ha) as Hx.
    pose proof (mix_between (6 / 10) (9 / 10) a Ha) as Hy.
    pose proof (mix_between (1 / 1) (2 / 10) a Ha) as Hz.
    rewrite Rmin_left, Rmax_right in Hx by lra.
    rewrite Rmin_left, Rmax_right in Hy by lra.
    rewrite Rmin_right, Rmax_left in Hz by lra.
    lra.
  - intros Hm. rewrite Hhi by lra. unfold mix.
    cbn [sadd ssub smul slit R_scalar]. repeat split; field.
  - intros Hm. rewrite Hlo by lra. unfold mix.
    cbn [sadd ssub smul slit R_scalar]. repeat split; field.
Qed.

Lemma fragment_centre : glsl_length (vsub (Vec2 (5 / 10) (5 / 10)) (Vec2 (5 / 10) (5 / 10))) <= 5 / 10.
Proof.
  unfold glsl_length, dot, vsub. cbn [vx vy sadd ssub smul ssqrt R_scalar].
  replace ((5 / 10 - 5 / 10) * (5 / 10 - 5 / 10) +
           (5 / 10 - 5 / 10) * (5 / 10 - 5 / 10)) with 0 by ring.
  rewrite sqrt_0. lra.
Qed.

Lemma fragment_color_witness :
  exists out : vec4 R,
    fragmentShader (Vec2 (5 / 10) (5 / 10)) 3 = Some out /\
    (1 / 10 <= v4x out <= 1 /\ 6 / 10 <= v4y out <= 9 / 10 /\
     2 / 10 <= v4z out <= 1) /\
    (2 <= 3 -> v4x out = 1 /\ v4y out = 9 / 10 /\ v4z out = 2 / 10) /\
    (3 <= 0 -> v4x out = 1 / 10 /\ v4y out = 6 / 10 /\ v4z out = 1).
Proof. exact (fragment_color (Vec2 (5 / 10) (5 / 10)) 3 fragment_centre). Defined.

Lemma program_masses (draw : nat -> R * R * R) (dts : list R) (k : nat)
    (p : Particle R) :
  program draw dts !! k = Some p -> mass p = (draw k).2.
Proof.
  intros Hk.
  assert (Hm : map mass (program draw dts) !! k = Some (mass p)).
  { change (map mass (program draw dts)) with (mass <$> program draw dts).
    rewrite list_lookup_fmap, Hk. reflexivity. }
  unfold program in Hm. rewrite masses_run, initParticles_app in Hm.
  unfold PARTICLE_COUNT in Hm. cbn [seq map app mass] in Hm.
  destruct k as [|[|k]]; cbn in Hm; [| |discriminate];
    injection Hm as Hm; symmetry; exact Hm.
Qed.

(** X17. With masses drawn in [0.2, 2.0), in every frame of the program
    every particle still has a mass in that range, so its collision radius
    is in [0.004, 0.04), the point size the vertex shader gives it is in
    [2, 20), and the colour blend factor [clamp(mass / 2, 0, 1)] is
    [mass / 2]: the clamp never saturates. *)
Theorem program_particle_ranges (draw : nat -> R * R * R) (dts : list R)
    (k : nat) (p : Particle R) :
  draws_in_range draw ->
  program draw dts !! k = Some p ->
  2 / 10 <= mass p < 2 /\
  4 / 1000 <= getRadius (mass p) < 4 / 100 /\
  2 <= gl_PointSize (vertexShader (pos p) (mass p)) < 20 /\
  clamp (mass p / 2) (slit 0 1) (slit 1 1) = mass p / 2.
Proof.
  intros Hr Hk. rewrite (program_masses draw dts k p Hk).
  specialize (Hr k). destruct (draw k) as [[x y] m]. cbn [snd].
  destruct Hr as (_ & _ & Hm).
  split; [exact Hm|].
  unfold getRadius, RADIUS_SCALE, vertexShader.
  cbn [gl_PointSize smul slit R_scalar].
  split; [lra|]. split; [lra|].
  destruct (clamp_unit (m / 2)) as (_ & _ & _ & Hmid). apply Hmid. lra.
Qed.

Lemma program_particle_ranges_witness :
  exists p : Particle R,
    program (fun k => match k with
                      | O => (- (1 / 10), 0, 1)
                      | _ => (1 / 10, 0, 3 / 2)
                      end) [16 / 1000; 16 / 1000] !! 1%nat = Some p /\
    2 / 10 <= mass p < 2 /\
    4 / 1000 <= getRadius (mass p) < 4 / 100 /\
    2 <= gl_PointSize (vertexShader (pos p) (mass p)) < 20 /\
    clamp (mass p / 2) (slit 0 1) (slit 1 1) = mass p / 2.
Proof.
  destruct (lookup_lt_is_Some_2
              (program (fun k => match k with
                                 | O => (- (1 / 10), 0, 1)
                                 | _ => (1 / 10, 0, 3 / 2)
                                 end) [16 / 1000; 16 / 1000]) 1) as [p Hp].
  { unfold program. rewrite length_run. cbn. lia. }
  exists p. split; [exact Hp|].
  apply (program_particle_ranges
           (fun k => match k with
                     | O => (- (1 / 10), 0, 1)
                     | _ => (1 / 10, 0, 3 / 2)
                     end) [16 / 1000; 16 / 1000] 1 p); [|exact Hp].
  intros [|i]; cbn; lra.
Defined.

End Shaders.

(** ** Binary32: a NaN is contagious *)

Section Contagion.

Lemma f32_nan_sub_r (x : float32) : ssub x S754_nan = S754_nan.
Proof. now destruct x. Qed.

Lemma f32_nan_sub_l (x : float32) : ssub S754_nan x = S754_nan.
Proof. now destruct x. Qed.

Lemma f32_nan_add_l (x : float32) : sadd S754_nan x = S754_nan.
Proof. now destruct x. Qed.

Lemma f32_nan_add_r (x : float32) : sadd x S754_nan = S754_nan.
Proof. now destruct x. Qed.

Lemma f32_nan_mul_l (x : float32) : smul S754_nan x = S754_nan.
Proof. now destruct x. Qed.

Lemma f32_nan_mul_r (x : float32) : smul x S754_nan = S754_nan.
Proof. now destruct x. Qed.

Lemma f32_nan_div_r (x : float32) : sdiv x S754_nan = S754_nan.
Proof. now destruct x. Qed.

Lemma f32_nan_ltb (x : float32) : sltb S754_nan x = false.
Proof. now destruct x. Qed.

Lemma dot_nan (v : vec2 float32) : has_nan v -> dot v v = S754_nan.
Proof.
  intros [Hx|Hy]; unfold dot.
  - rewrite Hx. now rewrite ?f32_nan_mul_l, ?f32_nan_add_l.
  - rewrite Hy. now rewrite ?f32_nan_mul_l, ?f32_nan_add_r.
Qed.

Lemma vdivs_nan (v : vec2 float32) : vdivs v S754_nan = Vec2 S754_nan S754_nan.
Proof. unfold vdivs. now rewrite !f32_nan_div_r. Qed.

(** The acceleration term is all NaN as soon as a coordinate of the
    separation is. *)
Lemma gravity_term_nan (p q : Particle float32) :
  has_nan (vsub (pos q) (pos p)) ->
  gravity_term p q = Vec2 S754_nan S754_nan.
Proof.
  intros Hn. unfold gravity_term. cbv zeta.
  rewrite (dot_nan _ Hn), f32_nan_add_l.
  change (ssqrt S754_nan) with S754_nan.
  rewrite vdivs_nan. unfold vscale. cbn [vx vy].
  now rewrite !f32_nan_mul_l.
Qed.

Lemma separation_nan (a b : Particle float32) :
  has_nan (pos a) \/ has_nan (pos b) ->
  has_nan (vsub (pos b) (pos a)) /\ has_nan (vsub (pos a) (pos b)).
Proof.
  unfold has_nan, vsub. cbn [vx vy].
  intros [[H|H]|[H|H]]; rewrite H;
    rewrite ?f32_nan_sub_l, ?f32_nan_sub_r; split; auto.
Qed.

Lemma nan_kick (v : vec2 float32) (dt : float32) :
  vadd v (vscale (vadd vzero (Vec2 S754_nan S754_nan)) dt) =
  Vec2 S754_nan S754_nan.
Proof.
  unfold vadd, vscale, vzero. cbn [vx vy].
  rewrite ?f32_nan_add_r, ?f32_nan_mul_l, ?f32_nan_add_r. reflexivity.
Qed.

Lemma nan_never_overlaps (a b : Particle float32) :
  has_nan (pos a) \/ has_nan (pos b) -> overlapping a b = false.
Proof.
  intros Hn. destruct (separation_nan a b Hn) as [Hab _].
  unfold overlapping, center_distSq, center_diff.
  rewrite (dot_nan _ Hab). apply f32_nan_ltb.
Qed.

(** X20. In binary32 a NaN is contagious and silent: if a position
    coordinate, x or y, of either of two particles is a NaN, then the
    overlap test is false, the collision pass resolves nothing, and after
    one frame, whatever [dt], every position and velocity coordinate of
    both particles is a NaN; the masses are kept. *)
Theorem nan_poisons_both (a b : Particle float32) (dt : float32) :
  has_nan (pos a) \/ has_nan (pos b) ->
  overlapping a b = false /\
  resolve_collisions (gravity_pass dt [a; b]) = gravity_pass dt [a; b] /\
  physics_step dt [a; b] =
  [ mkParticle (Vec2 S754_nan S754_nan) (Vec2 S754_nan S754_nan) (mass a);
    mkParticle (Vec2 S754_nan S754_nan) (Vec2 S754_nan S754_nan) (mass b) ].
Proof.
  intros Hn. destruct (separation_nan a b Hn) as [Hab Hba].
  split; [now apply nan_never_overlaps|].
  assert (Hskip : resolve_collisions (gravity_pass dt [a; b]) =
                  gravity_pass dt [a; b]).
  { rewrite gravity_pass_two, resolve_collisions_two.
    now rewrite nan_never_overlaps. }
  split; [exact Hskip|].
  unfold physics_step. rewrite Hskip, gravity_pass_two.
  rewrite (gravity_term_nan a b Hab), (gravity_term_nan b a Hba).
  unfold integrate, add_pos, add_vel.
  cbn [map pos vel mass]. rewrite !nan_kick.
  unfold vadd, vscale. cbn [vx vy].
  rewrite ?f32_nan_mul_l, ?f32_nan_add_r. reflexivity.
Qed.

Lemma nan_poisons_both_witness :
  overlapping scenario_A
    (mkParticle (Vec2 (slit 0 1) S754_nan) vzero (slit 1 1)) = false /\
  resolve_collisions
    (gravity_pass scenario_dt
       [scenario_A; mkParticle (Vec2 (slit 0 1) S754_nan) vzero (slit 1 1)]) =
  gravity_pass scenario_dt
    [scenario_A; mkParticle (Vec2 (slit 0 1) S754_nan) vzero (slit 1 1)] /\
  physics_step scenario_dt
    [scenario_A; mkParticle (Vec2 (slit 0 1) S754_nan) vzero (slit 1 1)] =
  [ mkParticle (Vec2 S754_nan S754_nan) (Vec2 S754_nan S754_nan)
      (mass (T:=float32) scenario_A);
    mkParticle (Vec2 S754_nan S754_nan) (Vec2 S754_nan S754_nan) (slit 1 1) ].
Proof.
  apply (nan_poisons_both scenario_A
           (mkParticle (Vec2 (slit 0 1) S754_nan) vzero (slit 1 1))
           scenario_dt).
  right. right. reflexivity.
Defined.

End Contagion.

